(** * Session file-change tracking: touched files, line counts, git content

    A shallow embedding of

    - [packages/shared/src/sessions] ([getSessionTouchedFiles],
      [countLineDifferences], [getChangeStatus]) and
    - [apps/electron/src/main/git.ts] ([isGitRepo], [getOriginalFromHead],
      [getCurrentFromDisk], [hasChanges], [getFileDiff]),

    together with the properties their documentation states.

    JavaScript strings are sequences of UTF-16 code units, a [Set] is an
    insertion-ordered collection without repetition, and functions that may
    throw (or promises that may reject) return an [outcome]. *)

From Stdlib Require Import ZArith NArith Ascii String.
From stdpp Require Import gmap strings list sorting.

Local Open Scope N_scope.

(** ** Strings *)

(** A JavaScript string: its UTF-16 code units. *)
Abbreviation jsstring := (list N).

(** The code units of a literal whose characters are all below U+0100. *)
Fixpoint u16 (s : string) : jsstring :=
  match s with
  | EmptyString => []
  | String c s' => N_of_ascii c :: u16 s'
  end.

Definition LF : N := 10.

(** A string is truthy exactly when it is not empty. *)
Definition str_truthy (s : jsstring) : bool :=
  match s with [] => false | _ :: _ => true end.

(** [s.split(sep)] for a separator made of the single code unit [sep]. The
    result always has at least one element: [''.split('\n')] is [['']]. *)
Fixpoint split (sep : N) (s : jsstring) : list jsstring :=
  match s with
  | [] => [[]]
  | c :: s' =>
      if c =? sep then [] :: split sep s'
      else match split sep s' with
           | line :: lines => (c :: line) :: lines
           | [] => [[c]]
           end
  end.

(** [WhiteSpace] and [LineTerminator] code points, the ones [trim] strips. *)
Definition isWhiteSpace (c : N) : bool :=
  (c =? 9) || (c =? 10) || (c =? 11) || (c =? 12) || (c =? 13) || (c =? 32)
  || (c =? 160) || (c =? 5760) || ((8192 <=? c) && (c <=? 8202))
  || (c =? 8232) || (c =? 8233) || (c =? 8239) || (c =? 8287)
  || (c =? 12288) || (c =? 65279).

Fixpoint trimStart (s : jsstring) : jsstring :=
  match s with
  | c :: s' => if isWhiteSpace c then trimStart s' else s
  | [] => []
  end.

Definition trimEnd (s : jsstring) : jsstring := reverse (trimStart (reverse s)).

Definition trim (s : jsstring) : jsstring := trimEnd (trimStart s).

(** [toLowerCase] on the ASCII letters; other code units are kept. The Unicode
    mappings outside ASCII never yield a string made of ASCII letters other
    than [k], so membership in [FILE_MODIFYING_TOOLS] is not affected. *)
Definition lowerUnit (c : N) : N :=
  if (65 <=? c) && (c <=? 90) then c + 32 else c.

Definition toLowerCase (s : jsstring) : jsstring := map lowerUnit s.

(** ** Sets *)

(** [Set<T>]: the elements in insertion order, each at most once. *)
Module JSSet.
Section Ops.
Context {A : Type} `{EqDecision A}.

Definition t := list A.

Definition empty : t := [].

Definition has (x : A) (s : t) : bool := bool_decide (x ∈ s).

Definition add (x : A) (s : t) : t := if has x s then s else s ++ [x].

(** [new Set(iterable)] *)
Definition of_array (l : list A) : t := foldl (fun s x => add x s) empty l.

(** [Array.from(set)] *)
Definition to_array (s : t) : list A := s.
End Ops.
End JSSet.

(** ** Line counts *)

Module LineCounts.
Record t := { additions : nat; deletions : nat }.
End LineCounts.

(** [countLineDifferences]: both counting loops run over the line arrays and
    test membership in the set built from the other side. *)
Definition countLineDifferences (original modified : jsstring) : LineCounts.t :=
  let originalLines := split LF original in
  let modifiedLines := split LF modified in
  let originalSet := JSSet.of_array originalLines in
  let modifiedSet := JSSet.of_array modifiedLines in
  let additions :=
    foldl (fun additions line =>
             if negb (JSSet.has line originalSet) then S additions else additions)
          0%nat modifiedLines in
  let deletions :=
    foldl (fun deletions line =>
             if negb (JSSet.has line modifiedSet) then S deletions else deletions)
          0%nat originalLines in
  {| LineCounts.additions := additions; LineCounts.deletions := deletions |}.

(** ['modified' | 'added' | 'deleted'] *)
Inductive ChangeStatus := Modified | Added | Deleted.

(** [getChangeStatus] *)
Definition getChangeStatus (original modified : jsstring) : ChangeStatus :=
  if negb (str_truthy original) && str_truthy modified then Added
  else if str_truthy original && negb (str_truthy modified) then Deleted
  else Modified.

(** ** Exceptions and promises *)

(** The result of running a function body that may throw, or of awaiting a
    promise that may reject. *)
Inductive outcome (A : Type) : Type :=
| Returned (a : A)
| Thrown (reason : jsstring).
Arguments Returned {A} a.
Arguments Thrown {A} reason.

#[global] Instance outcome_ret : MRet outcome := fun A a => Returned a.
#[global] Instance outcome_bind : MBind outcome := fun A B f m =>
  match m with
  | Returned a => f a
  | Thrown e => Thrown e
  end.

(** [try { body } catch { handler }] *)
Definition try_catch {A} (body : outcome A) (handler : jsstring → outcome A) : outcome A :=
  match body with
  | Returned a => Returned a
  | Thrown e => handler e
  end.

(** [await Promise.all([p, q])] *)
Definition Promise_all {A B} (p : outcome A) (q : outcome B) : outcome (A * B) :=
  a ← p; b ← q; mret (a, b).

(** ** The host: child processes, file system, path functions *)

(** How a child process ends. [Failed] covers a process that could not be
    started, was killed when the timeout expired, or wrote more than
    [maxBuffer]. *)
Inductive ProcResult :=
| Exited (code : Z) (stdout : jsstring)
| Failed (reason : jsstring).

Record ExecOptions := {
  cwd : jsstring;
  timeout : N;
  maxBuffer : option N
}.

Record Host := {
  spawn : jsstring → ExecOptions → ProcResult;
  existsSync : jsstring → bool;
  fsReadFile : jsstring → outcome jsstring;
  isAbsolute : jsstring → bool;
  relative : jsstring → jsstring → jsstring
}.

(** [child_process.execSync]: the captured standard output when the command
    exits with status 0, an exception in every other case. *)
Definition execSync (h : Host) (command : jsstring) (options : ExecOptions)
  : outcome jsstring :=
  match spawn h command options with
  | Exited 0 stdout => Returned stdout
  | Exited _ _ => Thrown (u16 "Command failed: " ++ command)
  | Failed reason => Thrown reason
  end.

Definition quote : N := 34.

(** ** git.ts *)

(** The three commands, as [git.ts] passes them to [execSync]. *)
Definition gitRevParse (h : Host) (workingDir : jsstring) : outcome jsstring :=
  execSync h (u16 "git rev-parse --git-dir")
    {| cwd := workingDir; timeout := 5000; maxBuffer := None |}.

Definition gitShowHead (h : Host) (workingDir relativePath : jsstring)
  : outcome jsstring :=
  execSync h (u16 "git show HEAD:" ++ quote :: relativePath ++ [quote])
    {| cwd := workingDir; timeout := 10000;
       maxBuffer := Some (10 * 1024 * 1024) |}.

Definition gitDiffQuiet (h : Host) (workingDir relativePath : jsstring)
  : outcome jsstring :=
  execSync h (u16 "git diff --quiet HEAD -- " ++ quote :: relativePath ++ [quote])
    {| cwd := workingDir; timeout := 5000; maxBuffer := None |}.

(** [isAbsolute(filePath) ? relative(workingDir, filePath) : filePath] *)
Definition relativePathOf (h : Host) (workingDir filePath : jsstring) : jsstring :=
  if isAbsolute h filePath then relative h workingDir filePath else filePath.

(** [isGitRepo] *)
Definition isGitRepo (h : Host) (workingDir : jsstring) : outcome bool :=
  try_catch
    (_ ← gitRevParse h workingDir; mret true)
    (fun _ => mret false).

(** [getOriginalFromHead] *)
Definition getOriginalFromHead (h : Host) (workingDir filePath : jsstring)
  : outcome jsstring :=
  try_catch
    (let relativePath := relativePathOf h workingDir filePath in
     content ← gitShowHead h workingDir relativePath;
     mret content)
    (fun error => mret []).

(** [getCurrentFromDisk] *)
Definition getCurrentFromDisk (h : Host) (filePath : jsstring) : outcome jsstring :=
  try_catch
    (if negb (existsSync h filePath) then mret []
     else content ← fsReadFile h filePath; mret content)
    (fun _ => mret []).

(** [hasChanges] *)
Definition hasChanges (h : Host) (workingDir filePath : jsstring) : outcome bool :=
  try_catch
    (let relativePath := relativePathOf h workingDir filePath in
     _ ← gitDiffQuiet h workingDir relativePath;
     mret false)
    (fun _ => mret true).

Record SessionFileChange := {
  filePath : jsstring;
  status : ChangeStatus;
  additions : nat;
  deletions : nat;
  original : jsstring;
  modified : jsstring;
  error : option jsstring
}.

(** [getFileDiff] *)
Definition getFileDiff (h : Host) (workingDir filePath : jsstring)
  : outcome SessionFileChange :=
  '(original, modified) ← Promise_all (getOriginalFromHead h workingDir filePath)
                                      (getCurrentFromDisk h filePath);
  if bool_decide (original = modified) then
    mret {| filePath := filePath; status := Modified;
            additions := 0; deletions := 0;
            original := []; modified := []; error := None |}
  else
    let counts := countLineDifferences original modified in
    let status := getChangeStatus original modified in
    mret {| filePath := filePath; status := status;
            additions := LineCounts.additions counts;
            deletions := LineCounts.deletions counts;
            original := original; modified := modified; error := None |}.

(** ** Values of type [unknown] *)

(** A number: not a number, an infinity, or
    [(-1)^negative * mantissa * 2^exponent]. *)
Inductive JSNumber :=
| NaN
| Infinity (negative : bool)
| Finite (negative : bool) (mantissa : N) (exponent : Z).

(** What a tool input may hold. [JObject] stands for any object or array:
    the code below only tests such a value for truthiness and for its type. *)
Inductive JSValue :=
| JUndefined
| JNull
| JBoolean (b : bool)
| JNumber (x : JSNumber)
| JString (s : jsstring)
| JObject.

(** [ToBoolean] *)
Definition truthy (v : JSValue) : bool :=
  match v with
  | JUndefined | JNull => false
  | JBoolean b => b
  | JNumber NaN => false
  | JNumber (Infinity _) => true
  | JNumber (Finite _ mantissa _) => negb (mantissa =? 0)
  | JString s => str_truthy s
  | JObject => true
  end.

(** [a || b] *)
Definition js_or (a b : JSValue) : JSValue := if truthy a then a else b.

(** [obj.key]: a missing property reads as [undefined]. *)
Definition prop (obj : gmap jsstring JSValue) (key : string) : JSValue :=
  default JUndefined (obj !! u16 key).

(** ** Touched files *)

Record MessageLike := {
  type : option jsstring;
  role : option jsstring;
  toolName : option jsstring;
  toolInput : option (gmap jsstring JSValue)
}.

Definition FILE_MODIFYING_TOOLS : list jsstring :=
  [u16 "edit"; u16 "write"; u16 "multiedit"].

(** [isToolMessage] *)
Definition isToolMessage (msg : MessageLike) : bool :=
  bool_decide (type msg = Some (u16 "tool"))
  || bool_decide (role msg = Some (u16 "tool")).

(** One turn of the loop of [getSessionTouchedFiles]: the argument of
    [files.add] when the turn reaches it, [None] when the turn ends at a
    [continue] or the last test fails. *)
Definition touchedPath (msg : MessageLike) : option jsstring :=
  if negb (isToolMessage msg) then None else
  match toolInput msg with
  | None => None
  | Some toolInput =>
      match toLowerCase <$> toolName msg with
      | None => None
      | Some toolName =>
          if negb (str_truthy toolName)
             || negb (bool_decide (toolName ∈ FILE_MODIFYING_TOOLS))
          then None
          else
            let filePath := js_or (prop toolInput "file_path") (prop toolInput "path") in
            match filePath with
            | JString filePath =>
                if str_truthy (trim filePath) then Some filePath else None
            | _ => None
            end
      end
  end.

(** The set [files] after the loop. *)
Definition touchedSet (messages : list MessageLike) : JSSet.t :=
  foldl (fun files msg =>
           match touchedPath msg with
           | Some filePath => JSSet.add filePath files
           | None => files
           end)
        JSSet.empty messages.

(** ** Sorting with a comparison function *)

Section Sort.
Context {A : Type} (comparefn : A → A → Z).

(** [x] goes behind every element that [comparefn] does not place after it,
    so elements that compare equal keep their order. *)
Fixpoint insert_sorted (x : A) (l : list A) : list A :=
  match l with
  | [] => [x]
  | y :: l' =>
      if (0 <? comparefn y x)%Z then x :: l else y :: insert_sorted x l'
  end.

(** [array.sort(comparefn)]: a stable sort. For the comparison functions the
    language calls consistent, every stable sort returns this list. *)
Definition sort (l : list A) : list A :=
  foldl (fun sorted x => insert_sorted x sorted) [] l.

(** What ECMAScript asks of a consistent comparison function. *)
Record consistent : Prop := {
  comparefn_flip : ∀ a b, Z.sgn (comparefn b a) = (- Z.sgn (comparefn a b))%Z;
  comparefn_trans : ∀ a b c,
    (comparefn a b ≤ 0)%Z → (comparefn b c ≤ 0)%Z → (comparefn a c ≤ 0)%Z
}.

(** [a] is not placed after [b]. *)
Definition not_after (a b : A) : Prop := (comparefn a b ≤ 0)%Z.
End Sort.

(** [getSessionTouchedFiles]. [localeCompare] is the host's
    [String.prototype.localeCompare]. *)
Definition getSessionTouchedFiles (localeCompare : jsstring → jsstring → Z)
  (messages : list MessageLike) : list jsstring :=
  let files := touchedSet messages in
  sort localeCompare (JSSet.to_array files).

(** ** Orders on strings *)

(** Lexicographic comparison of two sequences of numbers. *)
Fixpoint lex_compare (a b : list N) : comparison :=
  match a, b with
  | [], [] => Eq
  | [], _ :: _ => Lt
  | _ :: _, [] => Gt
  | x :: a', y :: b' =>
      match x ?= y with
      | Eq => lex_compare a' b'
      | c => c
      end
  end.

Definition sign (c : comparison) : Z :=
  match c with Lt => -1 | Eq => 0 | Gt => 1 end.

(** Code-unit order, the order of [<] on JavaScript strings; on ASCII text
    it is the order of the bytes. *)
Definition code_unit_lt (a b : jsstring) : Prop := lex_compare a b = Lt.

(** Canonical decomposition of the letter e with acute accent. *)
Definition decompose (c : N) : list N :=
  if c =? 233 then [101; 769]
  else if c =? 201 then [69; 769]
  else [c].

Definition normalize (s : jsstring) : jsstring := mjoin (map decompose s).

Definition primaryWeight (c : N) : N := lowerUnit c + 1.

Definition tertiaryWeight (c : N) : N :=
  if (65 <=? c) && (c <=? 90) then 1 else 0.

Definition sortKey (s : jsstring) : list N :=
  let s' := normalize s in
  map primaryWeight s' ++ 0 :: map tertiaryWeight s'.

(** A comparison of the kind [localeCompare] performs, for Latin letters and
    the e with acute accent: canonically equivalent strings are equal,
    letters are ordered alphabetically whatever their case, and case only
    breaks ties, lower case first. Two strings are compared through their
    sort keys. *)
Definition collate (a b : jsstring) : Z :=
  sign (lex_compare (sortKey a) (sortKey b)).

(** * Vocabulary of the properties *)

(** The lines of a blob taken as a set of distinct contents. *)
Definition lineSet (s : jsstring) : gset jsstring := list_to_set (split LF s).

(** Lines of [side]'s line-set that are absent from [other]'s line-set. *)
Definition distinctLinesAbsent (side other : jsstring) : nat :=
  size (lineSet side ∖ lineSet other).

(** Lines of [side], each occurrence counted, whose text is no line of [other]. *)
Definition linesAbsent (side other : jsstring) : nat :=
  length (filter (fun line => line ∉ split LF other) (split LF side)).

(** The operation returned a value instead of throwing; for a command run
    by [execSync] this means that it exited with status 0. *)
Definition succeeded {A} (o : outcome A) : Prop := ∃ a, o = Returned a.

(** The entry [getFileDiff] returns when the two contents are identical. *)
Definition placeholder (filePath : jsstring) : SessionFileChange :=
  {| filePath := filePath; status := Modified; additions := 0; deletions := 0;
     original := []; modified := []; error := None |}.

(** The value of a field when it is a string that is not empty after
    trimming. *)
Definition usablePath (v : JSValue) : option jsstring :=
  match v with
  | JString s => if str_truthy (trim s) then Some s else None
  | _ => None
  end.

(** The first of [file_path], [path] that holds a usable value, every other
    value being passed over. *)
Definition firstUsablePath (input : gmap jsstring JSValue) : option jsstring :=
  match usablePath (prop input "file_path") with
  | Some path => Some path
  | None => usablePath (prop input "path")
  end.

(** The tool name of the message, lower-cased, is in the allow-list. *)
Definition namesFileModifyingTool (msg : MessageLike) : Prop :=
  ∃ name, toolName msg = Some name ∧ toLowerCase name ∈ FILE_MODIFYING_TOOLS.

(** The message passes the tests of the loop that do not look at the input
    fields, and [input] is its tool input. *)
Definition qualifies (msg : MessageLike) (input : gmap jsstring JSValue) : Prop :=
  (type msg = Some (u16 "tool") ∨ role msg = Some (u16 "tool"))
  ∧ toolInput msg = Some input
  ∧ namesFileModifyingTool msg.

#[global] Instance namesFileModifyingTool_dec msg : Decision (namesFileModifyingTool msg).
Proof.
  unfold namesFileModifyingTool. destruct (toolName msg) as [name |].
  - destruct (decide (toLowerCase name ∈ FILE_MODIFYING_TOOLS)) as [Hin | Hout].
    + left. by exists name.
    + right. intros (name' & [= <-] & Hin). done.
  - right. by intros (name' & [=] & _).
Defined.

(** * Sample hosts and messages *)

Definition x_y : jsstring := u16 "x" ++ LF :: u16 "y".
Definition y_x : jsstring := u16 "y" ++ LF :: u16 "x".
Definition b_b : jsstring := u16 "b" ++ LF :: u16 "b".

(** A repository at [/repo] whose last commit holds [a.txt] with the text
    "x"; on disk [a.txt] is unchanged and [b.txt] is new. *)
Definition sampleHost : Host := {|
  spawn command options :=
    if bool_decide (command = u16 "git rev-parse --git-dir") then
      Exited 0 (u16 ".git")
    else if bool_decide (command = u16 "git show HEAD:" ++ quote :: u16 "a.txt" ++ [quote]) then
      Exited 0 (u16 "x")
    else if bool_decide (command = u16 "git diff --quiet HEAD -- " ++ quote :: u16 "a.txt" ++ [quote]) then
      Exited 0 []
    else if bool_decide (command = u16 "git diff --quiet HEAD -- " ++ quote :: u16 "b.txt" ++ [quote]) then
      Exited 1 []
    else Exited 128 [];
  existsSync path :=
    bool_decide (path = u16 "/repo/a.txt") || bool_decide (path = u16 "/repo/b.txt");
  fsReadFile path :=
    if bool_decide (path = u16 "/repo/a.txt") then Returned (u16 "x")
    else if bool_decide (path = u16 "/repo/b.txt") then Returned (u16 "y")
    else Thrown (u16 "ENOENT");
  isAbsolute path := bool_decide (head path = Some 47);
  relative from to := drop (S (length from)) to
|}.

(** A host on which nothing can be retrieved: every command is killed at its
    timeout, and the file exists but cannot be read. *)
Definition failingHost : Host := {|
  spawn command options := Failed (u16 "ETIMEDOUT");
  existsSync path := true;
  fsReadFile path := Thrown (u16 "EACCES");
  isAbsolute path := bool_decide (head path = Some 47);
  relative from to := drop (S (length from)) to
|}.

(** A host without git, on which the file is readable. *)
Definition noGitHost : Host := {|
  spawn command options := Failed (u16 "ENOENT");
  existsSync path := true;
  fsReadFile path := Returned (u16 "y");
  isAbsolute path := bool_decide (head path = Some 47);
  relative from to := drop (S (length from)) to
|}.

Definition toolMessage (name : string) (input : list (string * JSValue)) : MessageLike :=
  {| type := Some (u16 "tool"); role := None; toolName := Some (u16 name);
     toolInput := Some (list_to_map (map (fun kv => (u16 kv.1, kv.2)) input)) |}.

Definition edit_a : MessageLike :=
  toolMessage "Edit" [("file_path", JString (u16 "a"))].
Definition write_B : MessageLike :=
  toolMessage "Write" [("file_path", JString (u16 "B"))].

Definition cafe_composed : jsstring := u16 "caf" ++ [233].
Definition cafe_decomposed : jsstring := u16 "cafe" ++ [769].

Definition edit_composed : MessageLike :=
  toolMessage "Edit" [("file_path", JString cafe_composed)].
Definition edit_decomposed : MessageLike :=
  toolMessage "Edit" [("file_path", JString cafe_decomposed)].

Definition number_then_path : MessageLike :=
  toolMessage "Edit"
    [("file_path", JNumber (Finite false 42 0)); ("path", JString (u16 "/a"))].
Definition blank_then_path : MessageLike :=
  toolMessage "Edit"
    [("file_path", JString (u16 "  ")); ("path", JString (u16 "/a"))].

Definition empty_then_path_input : gmap jsstring JSValue :=
  list_to_map [(u16 "file_path", JString []); (u16 "path", JString (u16 "/a"))].

Definition empty_then_path : MessageLike :=
  {| type := None; role := Some (u16 "tool"); toolName := Some (u16 "MultiEdit");
     toolInput := Some empty_then_path_input |}.

Definition read_a : MessageLike :=
  toolMessage "Read" [("file_path", JString (u16 "a"))].
Definition user_a : MessageLike :=
  {| type := Some (u16 "user"); role := Some (u16 "user");
     toolName := Some (u16 "Edit");
     toolInput := Some (list_to_map [(u16 "file_path", JString (u16 "a"))]) |}.

(** * Further functions of the same files *)

(** ** More operations on strings and arrays *)

Definition DOT : N := 46.
Definition SLASH : N := 47.

(** [parts.join(sep)] for a separator made of the single code unit [sep]. *)
Fixpoint join (sep : N) (parts : list jsstring) : jsstring :=
  match parts with
  | [] => []
  | [part] => part
  | part :: rest => part ++ sep :: join sep rest
  end.

(** [s.lastIndexOf(c)] for a search string made of the single code unit [c]:
    the index of its last occurrence, -1 when there is none. *)
Fixpoint lastIndexOf (c : N) (s : jsstring) : Z :=
  match s with
  | [] => -1
  | x :: s' =>
      let i := lastIndexOf c s' in
      if (0 <=? i)%Z then (i + 1)%Z
      else if x =? c then 0%Z
      else (-1)%Z
  end.

(** [l.slice(start, end)] on strings and arrays: a negative index counts
    from the end, and both indices are clamped to the length. *)
Definition slice {A} (start finish : Z) (l : list A) : list A :=
  let len := Z.of_nat (length l) in
  let from := if (start <? 0)%Z then Z.max (len + start) 0 else Z.min start len in
  let to := if (finish <? 0)%Z then Z.max (len + finish) 0 else Z.min finish len in
  take (Z.to_nat (to - from)) (drop (Z.to_nat from) l).

(** [l.slice(start)] *)
Definition sliceFrom {A} (start : Z) (l : list A) : list A :=
  slice start (Z.of_nat (length l)) l.

(** ** git.ts: binary files *)

Definition binaryExtensions : list jsstring :=
  map u16
    [".png"; ".jpg"; ".jpeg"; ".gif"; ".webp"; ".ico"; ".icns";
     ".pdf"; ".doc"; ".docx"; ".xls"; ".xlsx"; ".ppt"; ".pptx";
     ".zip"; ".tar"; ".gz"; ".7z"; ".rar";
     ".mp3"; ".mp4"; ".wav"; ".mov"; ".avi";
     ".exe"; ".dll"; ".so"; ".dylib";
     ".woff"; ".woff2"; ".ttf"; ".otf"; ".eot"].

(** [isBinaryFile]. The index of the last dot is taken in [filePath] and
    applied to the lower-cased path. [lowerCase] is the host's
    [String.prototype.toLowerCase], which may change the length of a string
    that is not ASCII. *)
Definition isBinaryFile (lowerCase : jsstring → jsstring) (filePath : jsstring) : bool :=
  let ext := sliceFrom (lastIndexOf DOT filePath) (lowerCase filePath) in
  bool_decide (ext ∈ binaryExtensions).

(** All code units are ASCII. *)
Definition isAscii (s : jsstring) : Prop := Forall (fun c => c < 128) s.

(** On ASCII strings the host's [toLowerCase] is [toLowerCase] above. *)
Definition lowersAscii (lowerCase : jsstring → jsstring) : Prop :=
  ∀ s, isAscii s → lowerCase s = toLowerCase s.

(** ** ShikiDiffViewer.tsx: language and statistics *)


(** The fields of a hunk of [FileDiffMetadata] that [getDiffStats] reads. *)
Record Hunk := { additionCount : nat; deletionCount : nat }.

Record FileDiffMetadata := { hunks : list Hunk }.

(** [getDiffStats] *)
Definition getDiffStats (fileDiff : FileDiffMetadata) : LineCounts.t :=
  let '(additions, deletions) :=
    foldl (fun '(additions, deletions) hunk =>
             ((additions + additionCount hunk)%nat,
              (deletions + deletionCount hunk)%nat))
          (0%nat, 0%nat) (hunks fileDiff) in
  {| LineCounts.additions := additions; LineCounts.deletions := deletions |}.

(** ** SessionChangesSection.tsx: what an entry of the list shows *)

(** [getFileName] *)
Definition getFileName (filePath : jsstring) : jsstring :=
  match last (split SLASH filePath) with
  | Some name => if str_truthy name then name else filePath
  | None => filePath
  end.

(** [getParentDir] *)
Definition getParentDir (filePath : jsstring) : jsstring :=
  let parts := split SLASH filePath in
  if (length parts <=? 2)%nat then []
  else join SLASH (slice (-3) (-1) parts).

#[global] Instance ChangeStatus_eq_dec : EqDecision ChangeStatus.
Proof. solve_decision. Defined.

(** What [ChangeItem] renders beside the file name. *)
Inductive Badge :=
| Plus (n : nat)
| Minus (n : nat)
| New.

Definition lineCountBadges (change : SessionFileChange) : list Badge :=
  (if (0 <? additions change)%nat then [Plus (additions change)] else [])
  ++ (if (0 <? deletions change)%nat then [Minus (deletions change)] else [])
  ++ (if bool_decide (status change = Added) && (additions change =? 0)%nat
      then [New] else []).

Inductive ToolType := Write | Edit.

(** The [toolType] of the entry that [SessionChangesSection] passes to the
    overlay for a change. *)
Definition toolTypeOf (change : SessionFileChange) : ToolType :=
  if bool_decide (status change = Added) then Write else Edit.

(** The entry [getFileDiff] builds from the two resolved contents. *)
Definition changeEntry (filePath committed current : jsstring) : SessionFileChange :=
  if bool_decide (committed = current) then placeholder filePath
  else {| filePath := filePath;
          status := getChangeStatus committed current;
          additions := LineCounts.additions (countLineDifferences committed current);
          deletions := LineCounts.deletions (countLineDifferences committed current);
          original := committed; modified := current; error := None |}.

(** The elements of a list in the order of their first occurrence, later
    repetitions left out. *)
Fixpoint firstOccurrences (l : list jsstring) : list jsstring :=
  match l with
  | [] => []
  | x :: l' => x :: filter (fun y => y ≠ x) (firstOccurrences l')
  end.

(** * Properties *)

(** ** Sets *)

Module JSSetFacts.
Section Facts.
Import JSSet.
Context {A : Type} `{EqDecision A}.

Lemma has_true (x : A) (s : list A) : has x s = true ↔ x ∈ s.
Proof. unfold has. apply bool_decide_eq_true. Qed.

Lemma elem_of_add (x y : A) (s : list A) : y ∈ add x s ↔ y = x ∨ y ∈ s.
Proof.
  unfold add. destruct (has x s) eqn:E.
  - apply has_true in E. split; [auto | intros [-> | ?]; done].
  - rewrite elem_of_app, list_elem_of_singleton. tauto.
Qed.

Lemma NoDup_add (x : A) (s : list A) : NoDup s → NoDup (add x s).
Proof.
  intros Hs. unfold add. destruct (has x s) eqn:E; [done |].
  apply NoDup_app. split_and!; [done | | apply NoDup_singleton].
  intros y Hy ->%list_elem_of_singleton.
  apply has_true in Hy. congruence.
Qed.

Lemma elem_of_foldl_add (l s : list A) (y : A) :
  y ∈ foldl (fun s x => add x s) s l ↔ y ∈ s ∨ y ∈ l.
Proof.
  revert s. induction l as [| x l IH]; intros s; simpl.
  - rewrite elem_of_nil. tauto.
  - rewrite IH, elem_of_add, elem_of_cons. tauto.
Qed.

Lemma elem_of_of_array (l : list A) (y : A) : y ∈ of_array l ↔ y ∈ l.
Proof.
  unfold of_array. rewrite elem_of_foldl_add. unfold empty.
  rewrite elem_of_nil. tauto.
Qed.

Lemma has_of_array (l : list A) (y : A) : has y (of_array l) = bool_decide (y ∈ l).
Proof.
  unfold has. apply bool_decide_ext, elem_of_of_array.
Qed.
End Facts.
End JSSetFacts.

(** ** Line counts *)

Lemma foldl_count {A} (P : A → Prop) `{∀ x, Decision (P x)} (test : A → bool)
  (l : list A) (n : nat) :
  (∀ x, test x = true ↔ P x) →
  foldl (fun count x => if test x then S count else count) n l
  = (n + length (filter P l))%nat.
Proof.
  intros Htest. revert n. induction l as [| x l IH]; intros n; simpl.
  - lia.
  - rewrite IH. destruct (test x) eqn:E.
    + apply Htest in E. rewrite filter_cons_True by done. simpl. lia.
    + rewrite filter_cons_False; [done |]. rewrite <- Htest. congruence.
Qed.

Lemma countLineDifferences_lines original modified :
  countLineDifferences original modified
  = {| LineCounts.additions := linesAbsent modified original;
       LineCounts.deletions := linesAbsent original modified |}.
Proof.
  unfold countLineDifferences, linesAbsent. f_equal.
  - rewrite (foldl_count (fun line => line ∉ split LF original)); [done |].
    intros line. rewrite JSSetFacts.has_of_array, negb_true_iff, bool_decide_eq_false. done.
  - rewrite (foldl_count (fun line => line ∉ split LF modified)); [done |].
    intros line. rewrite JSSetFacts.has_of_array, negb_true_iff, bool_decide_eq_false. done.
Qed.

Lemma linesAbsent_distinct side other :
  NoDup (split LF side) → linesAbsent side other = distinctLinesAbsent side other.
Proof.
  intros Hnd. unfold linesAbsent, distinctLinesAbsent, lineSet.
  rewrite <- (size_list_to_set (C := gset jsstring)) by by apply NoDup_filter.
  f_equal. apply set_eq. intros line.
  rewrite elem_of_list_to_set, list_elem_of_filter, elem_of_difference,
    !elem_of_list_to_set. tauto.
Qed.

Lemma linesAbsent_Permutation side side' other other' :
  split LF side ≡ₚ split LF side' → split LF other ≡ₚ split LF other' →
  linesAbsent side other = linesAbsent side' other'.
Proof.
  intros Hs Ho. unfold linesAbsent.
  rewrite (list_filter_iff _ (fun line => line ∉ split LF other')).
  - by rewrite Hs.
  - intros line. by rewrite Ho.
Qed.

Lemma linesAbsent_self s : linesAbsent s s = 0%nat.
Proof.
  unfold linesAbsent. apply length_zero_iff_nil.
  destruct (filter _ _) as [| line rest] eqn:E; [done |].
  assert (Hin : line ∈ filter (fun line => line ∉ split LF s) (split LF s))
    by (rewrite E; left).
  apply list_elem_of_filter in Hin. tauto.
Qed.

(** C1, as the claim states it, fails: for original "a" and modified "b\nb"
    the line-set of the modified side has one line absent from the original,
    yet [countLineDifferences] reports two additions. *)
Lemma countLineDifferences_not_distinct :
  LineCounts.additions (countLineDifferences (u16 "a") b_b) = 2%nat
  ∧ distinctLinesAbsent b_b (u16 "a") = 1%nat
  ∧ LineCounts.additions (countLineDifferences (u16 "a") b_b)
    ≠ distinctLinesAbsent b_b (u16 "a").
Proof. split_and!; vm_compute; (reflexivity || discriminate). Qed.

(** C1, amended: [countLineDifferences] returns as additions the number of
    lines of [modified], every occurrence counted, whose text is no line of
    [original], and as deletions the number of lines of [original], every
    occurrence counted, whose text is no line of [modified]. Each count is
    the number of distinct such lines when the side it runs over has no
    repeated line. *)
Theorem countLineDifferences_counts_occurrences original modified :
  LineCounts.additions (countLineDifferences original modified)
    = linesAbsent modified original
  ∧ LineCounts.deletions (countLineDifferences original modified)
    = linesAbsent original modified
  ∧ (NoDup (split LF modified) →
     LineCounts.additions (countLineDifferences original modified)
       = distinctLinesAbsent modified original)
  ∧ (NoDup (split LF original) →
     LineCounts.deletions (countLineDifferences original modified)
       = distinctLinesAbsent original modified).
Proof.
  rewrite countLineDifferences_lines. simpl.
  split_and!; auto using linesAbsent_distinct.
Qed.

Lemma countLineDifferences_counts_occurrences_witness :
  NoDup (split LF x_y) ∧ NoDup (split LF (u16 "y"))
  ∧ LineCounts.additions (countLineDifferences (u16 "y") x_y)
    = distinctLinesAbsent x_y (u16 "y")
  ∧ LineCounts.deletions (countLineDifferences (u16 "y") x_y)
    = distinctLinesAbsent (u16 "y") x_y.
Proof.
  assert (H1 : NoDup (split LF x_y)) by (apply (bool_decide_unpack _); vm_compute; exact I).
  assert (H2 : NoDup (split LF (u16 "y"))) by (apply (bool_decide_unpack _); vm_compute; exact I).
  destruct (countLineDifferences_counts_occurrences (u16 "y") x_y) as (_ & _ & Ha & Hd).
  split_and!; [exact H1 | exact H2 | exact (Ha H1) | exact (Hd H2)].
Defined.

(** C9: equal blobs give no additions and no deletions, and the result does
    not change when the lines of either blob are permuted; so "x\ny" against
    "y\nx" gives 0 and 0. *)
Theorem countLineDifferences_equal_and_permuted :
  (∀ a, countLineDifferences a a
        = {| LineCounts.additions := 0; LineCounts.deletions := 0 |})
  ∧ (∀ a b a' b',
       split LF a ≡ₚ split LF a' → split LF b ≡ₚ split LF b' →
       countLineDifferences a b = countLineDifferences a' b')
  ∧ countLineDifferences x_y y_x
    = {| LineCounts.additions := 0; LineCounts.deletions := 0 |}.
Proof.
  split_and!.
  - intros a. by rewrite countLineDifferences_lines, linesAbsent_self.
  - intros a b a' b' Ha Hb. rewrite !countLineDifferences_lines.
    f_equal; by apply linesAbsent_Permutation.
  - vm_compute. reflexivity.
Qed.

Lemma countLineDifferences_equal_and_permuted_witness :
  split LF x_y ≡ₚ split LF y_x
  ∧ countLineDifferences x_y b_b = countLineDifferences y_x b_b.
Proof.
  assert (H : split LF x_y ≡ₚ split LF y_x) by (vm_compute; apply perm_swap).
  split; [exact H |].
  exact (proj1 (proj2 countLineDifferences_equal_and_permuted) x_y b_b y_x b_b H
           (reflexivity _)).
Defined.

(** ** Change status *)

(** C6: ['added'] exactly for an empty original and a non-empty modified
    text, ['deleted'] exactly for a non-empty original and an empty modified
    text, ['modified'] in every other case, both texts empty included. *)
Theorem getChangeStatus_cases original modified :
  (getChangeStatus original modified = Added ↔ original = [] ∧ modified ≠ [])
  ∧ (getChangeStatus original modified = Deleted ↔ original ≠ [] ∧ modified = [])
  ∧ (getChangeStatus original modified = Modified ↔
       ¬ (original = [] ∧ modified ≠ []) ∧ ¬ (original ≠ [] ∧ modified = []))
  ∧ getChangeStatus [] [] = Modified
  ∧ getChangeStatus [] (u16 "hello") = Added
  ∧ getChangeStatus (u16 "hello") [] = Deleted
  ∧ getChangeStatus (u16 "a") (u16 "b") = Modified.
Proof.
  unfold getChangeStatus.
  destruct original, modified; simpl; split_and!; try reflexivity;
    split; try congruence; intuition congruence.
Qed.

(** ** Content resolution and the per-file entry *)

Lemma execSync_succeeded h command options :
  succeeded (execSync h command options)
  ↔ ∃ stdout, spawn h command options = Exited 0 stdout.
Proof.
  unfold succeeded, execSync.
  destruct (spawn h command options) as [[| p | p] stdout | reason];
    split; intros [x Hx]; try discriminate; eauto.
Qed.

Lemma getOriginalFromHead_value h workingDir filePath :
  getOriginalFromHead h workingDir filePath
  = Returned
      match gitShowHead h workingDir (relativePathOf h workingDir filePath) with
      | Returned content => content
      | Thrown _ => []
      end.
Proof. unfold getOriginalFromHead. by destruct (gitShowHead _ _ _). Qed.

Lemma getCurrentFromDisk_value h filePath :
  getCurrentFromDisk h filePath
  = Returned
      (if existsSync h filePath then
         match fsReadFile h filePath with
         | Returned content => content
         | Thrown _ => []
         end
       else []).
Proof.
  unfold getCurrentFromDisk.
  destruct (existsSync h filePath); [| done]. by destruct (fsReadFile _ _).
Qed.

Lemma getFileDiff_value h workingDir filePath original modified :
  getOriginalFromHead h workingDir filePath = Returned original →
  getCurrentFromDisk h filePath = Returned modified →
  getFileDiff h workingDir filePath
  = Returned
      (if bool_decide (original = modified) then placeholder filePath
       else {| filePath := filePath;
               status := getChangeStatus original modified;
               additions := LineCounts.additions (countLineDifferences original modified);
               deletions := LineCounts.deletions (countLineDifferences original modified);
               original := original; modified := modified; error := None |}).
Proof.
  intros Ho Hm. unfold getFileDiff, Promise_all. rewrite Ho, Hm. simpl.
  by destruct (bool_decide (original = modified)).
Qed.

(** C3: when the content resolved from HEAD and the content resolved from
    disk are identical, [getFileDiff] returns the zero-valued placeholder
    (no additions, no deletions, both snapshots empty); otherwise its
    additions and deletions are those of [countLineDifferences] and its
    status that of [getChangeStatus] on the two contents. *)
Theorem getFileDiff_placeholder_or_counts h workingDir filePath :
  ∃ committed current,
    getOriginalFromHead h workingDir filePath = Returned committed
    ∧ getCurrentFromDisk h filePath = Returned current
    ∧ (committed = current →
       ∃ change, getFileDiff h workingDir filePath = Returned change
         ∧ additions change = 0%nat ∧ deletions change = 0%nat
         ∧ original change = [] ∧ modified change = [])
    ∧ (committed ≠ current →
       ∃ change, getFileDiff h workingDir filePath = Returned change
         ∧ additions change
           = LineCounts.additions (countLineDifferences committed current)
         ∧ deletions change
           = LineCounts.deletions (countLineDifferences committed current)
         ∧ status change = getChangeStatus committed current).
Proof.
  eexists _, _. split; [apply getOriginalFromHead_value |].
  split; [apply getCurrentFromDisk_value |].
  split; intros Hcmp.
  - eexists. split.
    + apply getFileDiff_value;
        [apply getOriginalFromHead_value | apply getCurrentFromDisk_value].
    + rewrite bool_decide_eq_true_2 by done. done.
  - eexists. split.
    + apply getFileDiff_value;
        [apply getOriginalFromHead_value | apply getCurrentFromDisk_value].
    + rewrite bool_decide_eq_false_2 by done. done.
Qed.

Lemma getFileDiff_placeholder_or_counts_witness :
  (∃ change, getFileDiff sampleHost (u16 "/repo") (u16 "/repo/a.txt") = Returned change
     ∧ additions change = 0%nat ∧ deletions change = 0%nat
     ∧ original change = [] ∧ modified change = [])
  ∧ (∃ change, getFileDiff sampleHost (u16 "/repo") (u16 "/repo/b.txt") = Returned change
       ∧ additions change = 1%nat ∧ deletions change = 1%nat
       ∧ status change = Added).
Proof.
  split.
  - destruct (getFileDiff_placeholder_or_counts sampleHost (u16 "/repo") (u16 "/repo/a.txt"))
      as (committed & current & Hc & Hd & Hsame & _).
    apply Hsame. vm_compute in Hc, Hd. congruence.
  - destruct (getFileDiff_placeholder_or_counts sampleHost (u16 "/repo") (u16 "/repo/b.txt"))
      as (committed & current & Hc & Hd & _ & Hdiff).
    vm_compute in Hc, Hd.
    injection Hc as <-. injection Hd as <-.
    destruct Hdiff as (change & Hchange & Ha & Hdel & Hs); [discriminate |].
    exists change. split_and!; [exact Hchange | rewrite Ha | rewrite Hdel | rewrite Hs];
      vm_compute; reflexivity.
Defined.

(** C4, as the claim states it, fails: when neither the content at HEAD nor
    the content on disk can be retrieved, the entry [getFileDiff] returns has
    no [error]. *)
Lemma getFileDiff_error_never_set :
  gitShowHead failingHost (u16 "/repo") (u16 "a.txt") = Thrown (u16 "ETIMEDOUT")
  ∧ fsReadFile failingHost (u16 "/repo/a.txt") = Thrown (u16 "EACCES")
  ∧ getFileDiff failingHost (u16 "/repo") (u16 "/repo/a.txt")
    = Returned (placeholder (u16 "/repo/a.txt"))
  ∧ error (placeholder (u16 "/repo/a.txt")) = None.
Proof. split_and!; vm_compute; reflexivity. Qed.

(** C4, amended: for every file, also one whose content retrieval fails,
    [getFileDiff] does not throw and returns an entry for that path; the
    entry never carries an [error]: a failed retrieval only shows as the
    empty string for the content of the side that failed. *)
Theorem getFileDiff_fails_soft h workingDir path :
  ∃ change,
    getFileDiff h workingDir path = Returned change
    ∧ filePath change = path
    ∧ error change = None
    ∧ (¬ succeeded (gitShowHead h workingDir (relativePathOf h workingDir path)) →
       original change = [])
    ∧ (existsSync h path = false ∨ ¬ succeeded (fsReadFile h path) →
       modified change = []).
Proof.
  eexists. split.
  { apply getFileDiff_value;
      [apply getOriginalFromHead_value | apply getCurrentFromDisk_value]. }
  case_bool_decide as Hcmp; simpl; (split; [done |]); (split; [done |]);
    (split; [intros Hgit | intros Hdisk]); try done.
  - destruct (gitShowHead _ _ _) as [content | reason]; [| done].
    destruct Hgit. by exists content.
  - destruct Hdisk as [-> | Hread]; [done |].
    destruct (existsSync h path); [| done].
    destruct (fsReadFile h path) as [content | reason]; [| done].
    destruct Hread. by exists content.
Qed.

Lemma getFileDiff_fails_soft_witness :
  ¬ succeeded (gitShowHead noGitHost (u16 "/repo")
                 (relativePathOf noGitHost (u16 "/repo") (u16 "/repo/b.txt")))
  ∧ ∃ change,
      getFileDiff noGitHost (u16 "/repo") (u16 "/repo/b.txt") = Returned change
      ∧ filePath change = u16 "/repo/b.txt"
      ∧ error change = None
      ∧ original change = []
      ∧ modified change = u16 "y".
Proof.
  assert (Hgit : ¬ succeeded (gitShowHead noGitHost (u16 "/repo")
                   (relativePathOf noGitHost (u16 "/repo") (u16 "/repo/b.txt")))).
  { intros [content Hc]. vm_compute in Hc. discriminate. }
  split; [exact Hgit |].
  destruct (getFileDiff_fails_soft noGitHost (u16 "/repo") (u16 "/repo/b.txt"))
    as (change & Hchange & Hpath & Herr & Horig & _).
  exists change. split_and!; [exact Hchange | exact Hpath | exact Herr | exact (Horig Hgit) |].
  vm_compute in Hchange. injection Hchange as <-. reflexivity.
Defined.

(** C5: no operation of the content resolver throws. [getOriginalFromHead]
    resolves to the empty string whenever [git show] fails, a path absent
    from the last commit included; [getCurrentFromDisk] resolves to the empty
    string when the file is missing or cannot be read; [isGitRepo] returns
    [false] whenever the query fails; [hasChanges] returns [false] exactly
    when the quiet diff exits with status 0 and [true] on every failure. *)
Theorem content_resolver_fails_soft h workingDir path :
  (succeeded (getOriginalFromHead h workingDir path)
   ∧ (¬ succeeded (gitShowHead h workingDir (relativePathOf h workingDir path)) →
      getOriginalFromHead h workingDir path = Returned []))
  ∧ (succeeded (getCurrentFromDisk h path)
     ∧ (existsSync h path = false ∨ ¬ succeeded (fsReadFile h path) →
        getCurrentFromDisk h path = Returned []))
  ∧ (succeeded (isGitRepo h workingDir)
     ∧ (¬ succeeded (gitRevParse h workingDir) →
        isGitRepo h workingDir = Returned false))
  ∧ (succeeded (hasChanges h workingDir path)
     ∧ (hasChanges h workingDir path = Returned false
        ↔ succeeded (gitDiffQuiet h workingDir (relativePathOf h workingDir path)))
     ∧ (¬ succeeded (gitDiffQuiet h workingDir (relativePathOf h workingDir path)) →
        hasChanges h workingDir path = Returned true)).
Proof.
  split_and!.
  - rewrite getOriginalFromHead_value. by eexists.
  - intros Hgit. rewrite getOriginalFromHead_value.
    destruct (gitShowHead _ _ _) as [content | reason]; [| done].
    destruct Hgit. by exists content.
  - rewrite getCurrentFromDisk_value. by eexists.
  - intros Hdisk. rewrite getCurrentFromDisk_value.
    destruct Hdisk as [-> | Hread]; [done |].
    destruct (existsSync h path); [| done].
    destruct (fsReadFile h path) as [content | reason]; [| done].
    destruct Hread. by exists content.
  - unfold isGitRepo. destruct (gitRevParse _ _); by eexists.
  - intros Hgit. unfold isGitRepo.
    destruct (gitRevParse _ _) as [out | reason]; [| done].
    destruct Hgit. by exists out.
  - unfold hasChanges. destruct (gitDiffQuiet _ _ _); by eexists.
  - unfold hasChanges.
    destruct (gitDiffQuiet _ _ _) as [out | reason]; simpl.
    + split; [by exists out | done].
    + split; [discriminate | intros [out Hout]; discriminate].
  - intros Hgit. unfold hasChanges.
    destruct (gitDiffQuiet _ _ _) as [out | reason]; [| done].
    destruct Hgit. by exists out.
Qed.

Lemma content_resolver_fails_soft_witness :
  getOriginalFromHead failingHost (u16 "/repo") (u16 "/repo/a.txt") = Returned []
  ∧ getCurrentFromDisk failingHost (u16 "/repo/a.txt") = Returned []
  ∧ isGitRepo failingHost (u16 "/repo") = Returned false
  ∧ hasChanges failingHost (u16 "/repo") (u16 "/repo/a.txt") = Returned true
  ∧ hasChanges sampleHost (u16 "/repo") (u16 "/repo/a.txt") = Returned false.
Proof.
  destruct (content_resolver_fails_soft failingHost (u16 "/repo") (u16 "/repo/a.txt"))
    as ((_ & Hhead) & (_ & Hdisk) & (_ & Hrepo) & (_ & _ & Hchanged)).
  destruct (content_resolver_fails_soft sampleHost (u16 "/repo") (u16 "/repo/a.txt"))
    as (_ & _ & _ & (_ & Hquiet & _)).
  split_and!.
  - apply Hhead. intros [content Hc]. vm_compute in Hc. discriminate.
  - apply Hdisk. right. intros [content Hc]. vm_compute in Hc. discriminate.
  - apply Hrepo. intros [content Hc]. vm_compute in Hc. discriminate.
  - apply Hchanged. intros [content Hc]. vm_compute in Hc. discriminate.
  - apply Hquiet. exists []. vm_compute. reflexivity.
Defined.

(** ** Sorting *)

Section SortFacts.
Context {A : Type} (comparefn : A → A → Z).

Lemma insert_sorted_Permutation x l : insert_sorted comparefn x l ≡ₚ x :: l.
Proof.
  induction l as [| y l IH]; simpl; [done |].
  destruct (0 <? comparefn y x)%Z; [done |].
  rewrite IH. apply perm_swap.
Qed.

Lemma sort_Permutation l : sort comparefn l ≡ₚ l.
Proof.
  unfold sort.
  enough (∀ acc, foldl (fun sorted x => insert_sorted comparefn x sorted) acc l
                 ≡ₚ acc ++ l) as H by apply (H []).
  induction l as [| x l IH]; intros acc; simpl.
  - by rewrite app_nil_r.
  - rewrite IH, insert_sorted_Permutation.
    by rewrite <- Permutation_middle.
Qed.

Context (Hcmp : consistent comparefn).

Lemma not_after_flip a b :
  ¬ not_after comparefn a b → not_after comparefn b a.
Proof.
  unfold not_after. intros H.
  pose proof (comparefn_flip _ Hcmp a b) as Hflip.
  destruct (Z.sgn_spec (comparefn a b)) as [[? ?] | [[? ?] | [? ?]]],
    (Z.sgn_spec (comparefn b a)) as [[? ?] | [[? ?] | [? ?]]]; lia.
Qed.

#[local] Instance not_after_trans : Transitive (not_after comparefn).
Proof. intros a b c. apply (comparefn_trans _ Hcmp). Qed.

Lemma insert_sorted_Sorted x l :
  Sorted (not_after comparefn) l → Sorted (not_after comparefn) (insert_sorted comparefn x l).
Proof.
  induction l as [| y l IH]; intros Hl; simpl.
  - repeat constructor.
  - destruct (0 <? comparefn y x)%Z eqn:E.
    + constructor; [done |]. constructor.
      apply not_after_flip. unfold not_after. apply Z.ltb_lt in E. lia.
    + apply Z.ltb_ge in E. inversion Hl as [| ? ? Hl' Hhd]; subst.
      constructor; [by apply IH |].
      destruct l as [| z l]; simpl; [by constructor |].
      destruct (0 <? comparefn z x)%Z; constructor; [done |].
      by inversion Hhd.
Qed.

Lemma sort_Sorted l : Sorted (not_after comparefn) (sort comparefn l).
Proof.
  unfold sort.
  enough (∀ acc, Sorted (not_after comparefn) acc →
                 Sorted (not_after comparefn)
                   (foldl (fun sorted x => insert_sorted comparefn x sorted) acc l))
    as H by (apply H; constructor).
  induction l as [| x l IH]; intros acc Hacc; simpl; [done |].
  by apply IH, insert_sorted_Sorted.
Qed.

Lemma sort_StronglySorted l : StronglySorted (not_after comparefn) (sort comparefn l).
Proof. apply Sorted_StronglySorted; [apply _ | apply sort_Sorted]. Qed.

(** Two sorted arrangements of the same elements are the same list when the
    comparison function tells all the elements apart. *)
Lemma sorted_arrangement_unique l1 l2 :
  (∀ x y, x ∈ l1 → y ∈ l1 → comparefn x y = 0%Z → x = y) →
  l1 ≡ₚ l2 →
  StronglySorted (not_after comparefn) l1 →
  StronglySorted (not_after comparefn) l2 →
  l1 = l2.
Proof.
  intros Hdistinct Hperm H1 H2.
  apply (StronglySorted_unique_strong (not_after comparefn)); try done.
  intros x y Hx Hy Hxy Hyx. apply Hdistinct; [done | by rewrite Hperm |].
  unfold not_after in *.
  pose proof (comparefn_flip _ Hcmp x y) as Hflip.
  destruct (Z.sgn_spec (comparefn x y)) as [[? ?] | [[? ?] | [? ?]]],
    (Z.sgn_spec (comparefn y x)) as [[? ?] | [[? ?] | [? ?]]]; lia.
Qed.
End SortFacts.

(** ** Comparison through sort keys *)

Lemma lex_compare_flip a b : lex_compare b a = CompOpp (lex_compare a b).
Proof.
  revert b. induction a as [| x a IH]; intros [| y b]; simpl; try done.
  rewrite (N.compare_antisym x y).
  destruct (x ?= y); simpl; [apply IH | done | done].
Qed.

Lemma lex_compare_trans a b c :
  lex_compare a b ≠ Gt → lex_compare b c ≠ Gt → lex_compare a c ≠ Gt.
Proof.
  revert b c. induction a as [| x a IH]; intros [| y b] [| z c]; simpl; try done.
  destruct (N.compare_spec x y), (N.compare_spec y z), (N.compare_spec x z);
    subst; try lia; try done.
  apply IH.
Qed.

Lemma sign_nonpos c : (sign c ≤ 0)%Z ↔ c ≠ Gt.
Proof. destruct c; simpl; split; (done || lia). Qed.

(** Comparing sort keys is always a consistent comparison function. *)
Lemma compare_keys_consistent {A} (key : A → list N) :
  consistent (fun a b => sign (lex_compare (key a) (key b))).
Proof.
  split.
  - intros a b. rewrite (lex_compare_flip (key a) (key b)).
    by destruct (lex_compare (key a) (key b)).
  - intros a b c. rewrite !sign_nonpos. apply lex_compare_trans.
Qed.

Lemma collate_consistent : consistent collate.
Proof. apply (compare_keys_consistent sortKey). Qed.

(** ** Touched files *)

Lemma touchedSet_snoc messages msg :
  touchedSet (messages ++ [msg])
  = match touchedPath msg with
    | Some path => JSSet.add path (touchedSet messages)
    | None => touchedSet messages
    end.
Proof. unfold touchedSet. by rewrite foldl_app. Qed.

Lemma NoDup_touchedSet messages : NoDup (touchedSet messages).
Proof.
  induction messages as [| msg messages IH] using rev_ind.
  - constructor.
  - rewrite touchedSet_snoc. destruct (touchedPath msg); [| done].
    by apply JSSetFacts.NoDup_add.
Qed.

Lemma elem_of_touchedSet messages path :
  path ∈ touchedSet messages
  ↔ ∃ msg, msg ∈ messages ∧ touchedPath msg = Some path.
Proof.
  induction messages as [| msg messages IH] using rev_ind.
  - unfold touchedSet, JSSet.empty. simpl. split.
    + by intros ?%elem_of_nil.
    + by intros (msg & ?%elem_of_nil & _).
  - rewrite touchedSet_snoc. split.
    + destruct (touchedPath msg) as [path' |] eqn:E.
      * intros [-> | Hin]%JSSetFacts.elem_of_add.
        -- exists msg. split; [apply elem_of_app; right; left | done].
        -- apply IH in Hin as (msg' & Hin & Hpath).
           exists msg'. split; [apply elem_of_app; by left | done].
      * intros Hin. apply IH in Hin as (msg' & Hin & Hpath).
        exists msg'. split; [apply elem_of_app; by left | done].
    + intros (msg' & Hin & Hpath).
      apply elem_of_app in Hin as [Hin | ->%list_elem_of_singleton].
      * assert (path ∈ touchedSet messages) by (apply IH; eauto).
        destruct (touchedPath msg); [apply JSSetFacts.elem_of_add; by right | done].
      * rewrite Hpath. apply JSSetFacts.elem_of_add. by left.
Qed.

Lemma touchedSet_Permutation messages messages' :
  messages ≡ₚ messages' → touchedSet messages ≡ₚ touchedSet messages'.
Proof.
  intros Hperm. apply NoDup_Permutation; [apply NoDup_touchedSet .. |].
  intros path. rewrite !elem_of_touchedSet.
  split; intros (msg & Hin & Hpath); exists msg; split; try done.
  - by rewrite <- Hperm.
  - by rewrite Hperm.
Qed.

Lemma getSessionTouchedFiles_Permutation localeCompare messages :
  getSessionTouchedFiles localeCompare messages ≡ₚ touchedSet messages.
Proof. apply sort_Permutation. Qed.

Lemma elem_of_getSessionTouchedFiles localeCompare messages path :
  path ∈ getSessionTouchedFiles localeCompare messages
  ↔ ∃ msg, msg ∈ messages ∧ touchedPath msg = Some path.
Proof.
  by rewrite getSessionTouchedFiles_Permutation, elem_of_touchedSet.
Qed.

(** C2, as the claim states it, fails: the order is the one of
    [localeCompare], which is not the order of the code units. With a
    comparison that orders letters alphabetically before it looks at their
    case, the files "a" and "B" are returned in this order, while "B" comes
    first in code-unit order. *)
Lemma getSessionTouchedFiles_not_code_unit_order :
  consistent collate
  ∧ getSessionTouchedFiles collate [edit_a; write_B] = [u16 "a"; u16 "B"]
  ∧ code_unit_lt (u16 "B") (u16 "a")
  ∧ ¬ Sorted code_unit_lt [u16 "a"; u16 "B"].
Proof.
  split_and!; [apply collate_consistent | by vm_compute | by vm_compute |].
  intros Hs. inversion Hs as [| ? ? _ Hhd]; subst.
  inversion Hhd as [| ? ? Hlt]; subst. vm_compute in Hlt. discriminate.
Qed.

(** C2, amended: the list returned by [getSessionTouchedFiles] contains no
    duplicate paths and is sorted ascending in the order of [localeCompare]:
    no path is placed after a later one by the comparison. *)
Theorem getSessionTouchedFiles_NoDup_sorted localeCompare messages :
  NoDup (getSessionTouchedFiles localeCompare messages)
  ∧ (consistent localeCompare →
     StronglySorted (not_after localeCompare)
       (getSessionTouchedFiles localeCompare messages)).
Proof.
  split.
  - rewrite getSessionTouchedFiles_Permutation. apply NoDup_touchedSet.
  - intros Hcmp. by apply sort_StronglySorted.
Qed.

Lemma getSessionTouchedFiles_NoDup_sorted_witness :
  consistent collate
  ∧ StronglySorted (not_after collate)
      (getSessionTouchedFiles collate [write_B; edit_a; write_B]).
Proof.
  split; [exact collate_consistent |].
  exact (proj2 (getSessionTouchedFiles_NoDup_sorted collate [write_B; edit_a; write_B])
           collate_consistent).
Defined.

(** C10, as the claim states it, fails: two paths that differ only by the
    canonical form of a letter compare equal, the sort keeps them in the
    order in which the messages named them, and so the result follows the
    order of the messages. *)
Lemma getSessionTouchedFiles_order_dependent :
  consistent collate
  ∧ [edit_composed; edit_decomposed] ≡ₚ [edit_decomposed; edit_composed]
  ∧ getSessionTouchedFiles collate [edit_composed; edit_decomposed]
    = [cafe_composed; cafe_decomposed]
  ∧ getSessionTouchedFiles collate [edit_decomposed; edit_composed]
    = [cafe_decomposed; cafe_composed]
  ∧ getSessionTouchedFiles collate [edit_composed; edit_decomposed]
    ≠ getSessionTouchedFiles collate [edit_decomposed; edit_composed].
Proof.
  split_and!; [apply collate_consistent | apply perm_swap | by vm_compute ..].
Qed.

(** C10, amended: for every list of session messages and every permutation of
    it, [getSessionTouchedFiles] returns the same paths, and returns them in
    the same order whenever [localeCompare] gives 0 for no two different
    touched paths. *)
Theorem getSessionTouchedFiles_permutation localeCompare messages messages' :
  consistent localeCompare →
  messages ≡ₚ messages' →
  getSessionTouchedFiles localeCompare messages
    ≡ₚ getSessionTouchedFiles localeCompare messages'
  ∧ ((∀ p q, p ∈ getSessionTouchedFiles localeCompare messages →
             q ∈ getSessionTouchedFiles localeCompare messages →
             localeCompare p q = 0%Z → p = q) →
     getSessionTouchedFiles localeCompare messages
     = getSessionTouchedFiles localeCompare messages').
Proof.
  intros Hcmp Hperm.
  assert (Hout : getSessionTouchedFiles localeCompare messages
                 ≡ₚ getSessionTouchedFiles localeCompare messages').
  { rewrite !getSessionTouchedFiles_Permutation. by apply touchedSet_Permutation. }
  split; [done |]. intros Hdistinct.
  apply (sorted_arrangement_unique localeCompare Hcmp); try done;
    by apply sort_StronglySorted.
Qed.

Lemma getSessionTouchedFiles_permutation_witness :
  consistent collate
  ∧ [edit_a; write_B] ≡ₚ [write_B; edit_a]
  ∧ getSessionTouchedFiles collate [edit_a; write_B]
    = getSessionTouchedFiles collate [write_B; edit_a].
Proof.
  assert (Hperm : [edit_a; write_B] ≡ₚ [write_B; edit_a]) by apply perm_swap.
  split; [exact collate_consistent |]. split; [exact Hperm |].
  apply (getSessionTouchedFiles_permutation collate _ _ collate_consistent Hperm).
  intros p q Hp Hq.
  assert (Hout : getSessionTouchedFiles collate [edit_a; write_B] = [u16 "a"; u16 "B"])
    by (vm_compute; reflexivity).
  rewrite Hout in Hp, Hq.
  apply elem_of_cons in Hp as [-> | Hp]; [| apply list_elem_of_singleton in Hp as ->];
    (apply elem_of_cons in Hq as [-> | Hq]; [| apply list_elem_of_singleton in Hq as ->]);
    vm_compute; congruence.
Defined.

(** ** Which messages contribute which path *)

Lemma isToolMessage_true msg :
  isToolMessage msg = true
  ↔ type msg = Some (u16 "tool") ∨ role msg = Some (u16 "tool").
Proof.
  unfold isToolMessage. by rewrite orb_true_iff, !bool_decide_eq_true.
Qed.

Lemma allowed_truthy name : name ∈ FILE_MODIFYING_TOOLS → str_truthy name = true.
Proof.
  unfold FILE_MODIFYING_TOOLS. rewrite !elem_of_cons, elem_of_nil.
  by intros [-> | [-> | [-> | []]]].
Qed.

Lemma touchedPath_qualifies msg input :
  qualifies msg input →
  touchedPath msg
  = usablePath (js_or (prop input "file_path") (prop input "path")).
Proof.
  intros (Htool & Hinput & name & Hname & Hallowed).
  unfold touchedPath. apply isToolMessage_true in Htool. rewrite Htool, Hinput, Hname.
  simpl. rewrite (allowed_truthy _ Hallowed), bool_decide_eq_true_2 by done.
  simpl. by destruct (js_or _ _).
Qed.

Lemma touchedPath_Some msg path :
  touchedPath msg = Some path → ∃ input, qualifies msg input.
Proof.
  unfold touchedPath, qualifies, namesFileModifyingTool.
  destruct (isToolMessage msg) eqn:Htool; [| done].
  destruct (toolInput msg) as [input |]; [| done].
  destruct (toolName msg) as [name |]; [| done]. simpl.
  destruct (str_truthy (toLowerCase name)); [| done]. simpl.
  case_bool_decide as Hallowed; [| done]. intros _.
  exists input. split_and!; [by apply isToolMessage_true | done |].
  by exists name.
Qed.

Lemma getSessionTouchedFiles_singleton localeCompare msg :
  getSessionTouchedFiles localeCompare [msg]
  = match touchedPath msg with Some path => [path] | None => [] end.
Proof.
  unfold getSessionTouchedFiles, touchedSet. simpl. by destruct (touchedPath msg).
Qed.

(** C7, as the claim states it, fails: a [file_path] that holds a number
    other than 0, or a string of blanks, is not passed over in favour of
    [path]; the message then contributes nothing, although [path] holds a
    usable string. *)
Lemma touchedPath_not_first_usable :
  (∃ input, qualifies number_then_path input
            ∧ firstUsablePath input = Some (u16 "/a"))
  ∧ touchedPath number_then_path = None
  ∧ getSessionTouchedFiles collate [number_then_path] = []
  ∧ (∃ input, qualifies blank_then_path input
              ∧ firstUsablePath input = Some (u16 "/a"))
  ∧ touchedPath blank_then_path = None
  ∧ getSessionTouchedFiles collate [blank_then_path] = [].
Proof.
  split_and!; try (vm_compute; reflexivity).
  - eexists. split.
    + split_and!; [by left | reflexivity |].
      eexists. split; [reflexivity |]. vm_compute. by left.
    + vm_compute. reflexivity.
  - eexists. split.
    + split_and!; [by left | reflexivity |].
      eexists. split; [reflexivity |]. vm_compute. by left.
    + vm_compute. reflexivity.
Qed.

(** C7, amended: for every qualifying tool message the field read is
    [file_path] unless its value is falsy (missing, [undefined], [null],
    [false], 0, [NaN] or the empty string), and [path] in that case. The
    message contributes the value read when it is a string that is not empty
    after trimming, and nothing otherwise. So a usable [file_path] wins, a
    falsy [file_path] gives way to [path], and a [file_path] that is truthy
    but not usable makes the message contribute nothing whatever [path]
    holds. *)
Theorem touchedPath_field_choice localeCompare msg input :
  qualifies msg input →
  (∀ path, usablePath (prop input "file_path") = Some path →
           touchedPath msg = Some path)
  ∧ (truthy (prop input "file_path") = false →
     touchedPath msg = usablePath (prop input "path"))
  ∧ (truthy (prop input "file_path") = true →
     usablePath (prop input "file_path") = None →
     touchedPath msg = None)
  ∧ getSessionTouchedFiles localeCompare [msg]
    = match touchedPath msg with Some path => [path] | None => [] end.
Proof.
  intros Hq. rewrite (touchedPath_qualifies _ _ Hq). unfold js_or.
  split_and!.
  - intros path Hpath.
    destruct (prop input "file_path") as [| | | | s |]; try done.
    simpl in Hpath. destruct (str_truthy (trim s)) eqn:E; [| done].
    assert (str_truthy s = true) as Hs by (by destruct s).
    simpl. by rewrite Hs, <- Hpath; simpl; rewrite E.
  - by intros ->.
  - by intros -> ->.
  - rewrite getSessionTouchedFiles_singleton. by rewrite (touchedPath_qualifies _ _ Hq).
Qed.

Lemma touchedPath_field_choice_witness :
  qualifies empty_then_path empty_then_path_input
  ∧ truthy (prop empty_then_path_input "file_path") = false
  ∧ touchedPath empty_then_path = Some (u16 "/a").
Proof.
  assert (Hq : qualifies empty_then_path empty_then_path_input).
  { split_and!; [by right | reflexivity |].
    exists (u16 "MultiEdit"). split; [reflexivity |]. vm_compute. right. right. left. }
  assert (Hfalsy : truthy (prop empty_then_path_input "file_path") = false)
    by (vm_compute; reflexivity).
  split; [exact Hq |]. split; [exact Hfalsy |].
  destruct (touchedPath_field_choice collate _ _ Hq) as (_ & Hpath & _).
  rewrite (Hpath Hfalsy). vm_compute. reflexivity.
Defined.

Lemma touchedPath_other_tool msg :
  ¬ namesFileModifyingTool msg → touchedPath msg = None.
Proof.
  intros Hother. destruct (touchedPath msg) as [path |] eqn:E; [| done].
  apply touchedPath_Some in E as (input & _ & _ & Hname). done.
Qed.

Lemma touchedSet_filter (P : MessageLike → Prop) `{∀ msg, Decision (P msg)} messages :
  (∀ msg, ¬ P msg → touchedPath msg = None) →
  touchedSet (filter P messages) = touchedSet messages.
Proof.
  intros Hskip. induction messages as [| msg messages IH] using rev_ind; [done |].
  rewrite filter_app, touchedSet_snoc. simpl.
  destruct (decide (P msg)) as [Hp | Hnp].
  - rewrite filter_cons_True by done. rewrite filter_nil.
    by rewrite touchedSet_snoc, IH.
  - rewrite filter_cons_False by done. rewrite filter_nil, app_nil_r.
    by rewrite (Hskip _ Hnp).
Qed.

(** C8: a message contributes a path only if it is a tool message, by its
    [type] or by its [role], and its tool name in lower case is one of
    [edit], [write], [multiedit]; every path of the result comes from such a
    message; a message with another tool name contributes nothing, so that
    leaving such messages out does not change the result, even when they
    carry a [file_path]. *)
Theorem touchedPath_only_file_modifying_tools :
  (∀ msg path, touchedPath msg = Some path →
     (type msg = Some (u16 "tool") ∨ role msg = Some (u16 "tool"))
     ∧ namesFileModifyingTool msg)
  ∧ (∀ localeCompare messages path,
       path ∈ getSessionTouchedFiles localeCompare messages →
       ∃ msg, msg ∈ messages ∧ touchedPath msg = Some path
              ∧ (type msg = Some (u16 "tool") ∨ role msg = Some (u16 "tool"))
              ∧ namesFileModifyingTool msg)
  ∧ (∀ msg, ¬ namesFileModifyingTool msg → touchedPath msg = None)
  ∧ (∀ localeCompare messages,
       getSessionTouchedFiles localeCompare (filter namesFileModifyingTool messages)
       = getSessionTouchedFiles localeCompare messages)
  ∧ touchedPath read_a = None
  ∧ touchedPath user_a = None
  ∧ touchedPath edit_a = Some (u16 "a")
  ∧ touchedPath empty_then_path = Some (u16 "/a").
Proof.
  split_and!.
  - intros msg path Hpath.
    apply touchedPath_Some in Hpath as (input & Htool & _ & Hname). done.
  - intros localeCompare messages path Hin.
    apply elem_of_getSessionTouchedFiles in Hin as (msg & Hin & Hpath).
    exists msg. split_and!; try done;
      apply touchedPath_Some in Hpath as (input & Htool & _ & Hname); done.
  - apply touchedPath_other_tool.
  - intros localeCompare messages. unfold getSessionTouchedFiles.
    by rewrite (touchedSet_filter _ _ touchedPath_other_tool).
  - vm_compute. reflexivity.
  - vm_compute. reflexivity.
  - vm_compute. reflexivity.
  - vm_compute. reflexivity.
Qed.

Lemma touchedPath_only_file_modifying_tools_witness :
  touchedPath write_B = Some (u16 "B")
  ∧ (type write_B = Some (u16 "tool") ∨ role write_B = Some (u16 "tool"))
  ∧ namesFileModifyingTool write_B
  ∧ ¬ namesFileModifyingTool read_a
  ∧ touchedPath read_a = None.
Proof.
  assert (Hpath : touchedPath write_B = Some (u16 "B")) by (vm_compute; reflexivity).
  assert (Hread : ¬ namesFileModifyingTool read_a).
  { intros (name & [= <-] & Hin). vm_compute in Hin.
    repeat (apply elem_of_cons in Hin as [[=] | Hin]). by apply elem_of_nil in Hin. }
  destruct touchedPath_only_file_modifying_tools as (Honly & _ & Hother & _).
  destruct (Honly write_B _ Hpath) as [Htool Hname].
  split_and!; [exact Hpath | exact Htool | exact Hname | exact Hread | exact (Hother _ Hread)].
Defined.


(** * Further properties *)

(** ** Splitting and joining *)

Lemma split_nonempty sep s : split sep s ≠ [].
Proof. destruct s as [| c s]; simpl; [done |]. destruct (c =? sep), (split sep s); done. Qed.

Lemma split_no_sep sep s : sep ∉ s → split sep s = [s].
Proof.
  induction s as [| c s IH]; intros Hout; simpl; [done |].
  apply not_elem_of_cons in Hout as [Hne Hout].
  destruct (N.eqb_spec c sep) as [-> | _]; [done |]. by rewrite IH.
Qed.

Lemma split_app_sep sep a b :
  split sep (a ++ sep :: b) = split sep a ++ split sep b.
Proof.
  induction a as [| c a IH]; simpl.
  - by rewrite N.eqb_refl.
  - rewrite IH. destruct (c =? sep); [done |].
    pose proof (split_nonempty sep a). by destruct (split sep a).
Qed.

Lemma join_split sep s : join sep (split sep s) = s.
Proof.
  induction s as [| c s IH]; simpl; [done |].
  pose proof (split_nonempty sep s) as Hne.
  destruct (N.eqb_spec c sep) as [-> | _].
  - destruct (split sep s) as [| line lines]; [done |]. simpl in *. by rewrite IH.
  - destruct (split sep s) as [| line [| line' lines]]; [done | ..];
      simpl in *; by rewrite <- IH.
Qed.

Lemma length_split sep s :
  length (split sep s) = S (length (filter (fun c => c = sep) s)).
Proof.
  induction s as [| c s IH]; simpl; [done |].
  pose proof (split_nonempty sep s) as Hne.
  destruct (N.eqb_spec c sep) as [-> | Hc].
  - rewrite filter_cons_True by done. simpl. by rewrite IH.
  - rewrite filter_cons_False by done.
    destruct (split sep s) as [| line lines]; [done |]. simpl in *. done.
Qed.

Lemma last_split_app_sep sep a b :
  last (split sep (a ++ sep :: b)) = last (split sep b).
Proof.
  rewrite split_app_sep. pose proof (split_nonempty sep b).
  destruct (split sep b) as [| line lines] using rev_ind; [done |].
  by rewrite app_assoc, !last_snoc.
Qed.

(** ** More on line counts *)

Lemma linesAbsent_le side other :
  (linesAbsent side other ≤ length (split LF side))%nat.
Proof. unfold linesAbsent. apply length_filter. Qed.

Lemma linesAbsent_zero side other :
  linesAbsent side other = 0%nat
  ↔ ∀ line, line ∈ split LF side → line ∈ split LF other.
Proof.
  unfold linesAbsent. rewrite length_zero_iff_nil. split.
  - intros Hnil line Hin.
    destruct (decide (line ∈ split LF other)) as [| Hout]; [done |].
    by destruct (filter_nil_not_elem_of _ _ line Hnil Hout).
  - intros Hsub. destruct (filter _ _) as [| line rest] eqn:E; [done |].
    assert (Hin : line ∈ filter (fun line => line ∉ split LF other) (split LF side))
      by (rewrite E; left).
    apply list_elem_of_filter in Hin as [Hout Hin]. destruct Hout. by apply Hsub.
Qed.

Lemma linesAbsent_same_set side other other' :
  lineSet other = lineSet other' →
  linesAbsent side other = linesAbsent side other'.
Proof.
  intros Hset. unfold linesAbsent. apply (f_equal length), list_filter_iff.
  intros line. unfold lineSet in Hset.
  by rewrite <- !(elem_of_list_to_set (C := gset jsstring)), Hset.
Qed.

(** X1: comparing in the other direction exchanges the two counts. *)
Theorem countLineDifferences_swap a b :
  countLineDifferences b a
  = {| LineCounts.additions := LineCounts.deletions (countLineDifferences a b);
       LineCounts.deletions := LineCounts.additions (countLineDifferences a b) |}.
Proof. by rewrite !countLineDifferences_lines. Qed.

(** X2: the additions never exceed the number of lines of the modified text
    and the deletions never exceed the number of lines of the original text,
    a text having one line more than it has newline characters. *)
Theorem countLineDifferences_bounds original modified :
  (LineCounts.additions (countLineDifferences original modified)
   ≤ S (length (filter (fun c => c = LF) modified)))%nat
  ∧ (LineCounts.deletions (countLineDifferences original modified)
     ≤ S (length (filter (fun c => c = LF) original)))%nat.
Proof.
  rewrite countLineDifferences_lines. simpl.
  rewrite <- !length_split. split; apply linesAbsent_le.
Qed.

(** X3: there are no additions exactly when every line of the modified text
    occurs in the original text, no deletions exactly when every line of the
    original occurs in the modified text, and both counts are 0 exactly when
    the two texts have the same set of lines. *)
Theorem countLineDifferences_zero original modified :
  (LineCounts.additions (countLineDifferences original modified) = 0%nat
   ↔ lineSet modified ⊆ lineSet original)
  ∧ (LineCounts.deletions (countLineDifferences original modified) = 0%nat
     ↔ lineSet original ⊆ lineSet modified)
  ∧ (countLineDifferences original modified
     = {| LineCounts.additions := 0; LineCounts.deletions := 0 |}
     ↔ lineSet original = lineSet modified).
Proof.
  rewrite countLineDifferences_lines. simpl.
  assert (Hsub : ∀ a b, linesAbsent a b = 0%nat ↔ lineSet a ⊆ lineSet b).
  { intros a b. rewrite linesAbsent_zero. unfold lineSet.
    rewrite elem_of_subseteq. by setoid_rewrite elem_of_list_to_set. }
  split_and!; [apply Hsub | apply Hsub |]. split.
  - intros [= Ha Hd]. apply Hsub in Ha, Hd.
    apply set_eq. intros line. split; [apply Hd | apply Ha].
  - intros Heq. f_equal; apply Hsub; by rewrite Heq.
Qed.

(** X4: the additions depend on the original text only through its set of
    lines, and the deletions depend on the modified text only through its
    set of lines: repeating or reordering lines on that side changes
    nothing. *)
Theorem countLineDifferences_other_side_as_set original original' modified modified' :
  lineSet original = lineSet original' →
  lineSet modified = lineSet modified' →
  LineCounts.additions (countLineDifferences original modified)
  = LineCounts.additions (countLineDifferences original' modified)
  ∧ LineCounts.deletions (countLineDifferences original modified)
    = LineCounts.deletions (countLineDifferences original modified').
Proof.
  intros Ho Hm. rewrite !countLineDifferences_lines. simpl.
  split; by apply linesAbsent_same_set.
Qed.

Lemma countLineDifferences_other_side_as_set_witness :
  lineSet (u16 "b") = lineSet b_b
  ∧ LineCounts.additions (countLineDifferences (u16 "b") x_y)
    = LineCounts.additions (countLineDifferences b_b x_y)
  ∧ LineCounts.deletions (countLineDifferences x_y (u16 "b"))
    = LineCounts.deletions (countLineDifferences x_y b_b).
Proof.
  assert (H : lineSet (u16 "b") = lineSet b_b) by (vm_compute; reflexivity).
  split; [exact H |]. split.
  - exact (proj1 (countLineDifferences_other_side_as_set _ _ x_y x_y H (reflexivity _))).
  - exact (proj2 (countLineDifferences_other_side_as_set x_y x_y _ _ (reflexivity _) H)).
Defined.

(** X5: against an empty original text, as for a new file, the additions are
    the lines of the modified text that are not empty, and there is one
    deletion unless the modified text has an empty line: a new file without
    a final newline and without blank lines counts one deletion. *)
Theorem countLineDifferences_new_file modified :
  LineCounts.additions (countLineDifferences [] modified)
  = length (filter (fun line => line ≠ []) (split LF modified))
  ∧ LineCounts.deletions (countLineDifferences [] modified)
    = (if bool_decide ([] ∈ split LF modified) then 0 else 1)%nat
  ∧ (LF ∉ modified → modified ≠ [] →
     countLineDifferences [] modified
     = {| LineCounts.additions := 1; LineCounts.deletions := 1 |}).
Proof.
  rewrite countLineDifferences_lines. unfold linesAbsent. simpl.
  split_and!.
  - apply (f_equal length), list_filter_iff. intros line.
    by rewrite list_elem_of_singleton.
  - case_bool_decide as Hin.
    + by rewrite filter_cons_False, filter_nil by (intros Hout; done).
    + by rewrite filter_cons_True, filter_nil by done.
  - intros Hlf Hne. rewrite (split_no_sep _ _ Hlf). f_equal.
    + rewrite filter_cons_True; [done |]. by rewrite list_elem_of_singleton.
    + rewrite filter_cons_True; [done |]. rewrite list_elem_of_singleton. congruence.
Qed.

Lemma countLineDifferences_new_file_witness :
(LF ∉ u16 "y") ∧ (u16 "y" ≠ [])
  ∧ countLineDifferences [] (u16 "y")
    = {| LineCounts.additions := 1; LineCounts.deletions := 1 |}.
Proof.
  assert (H1 : LF ∉ u16 "y") by (apply (bool_decide_unpack _); vm_compute; exact I).
  assert (H2 : u16 "y" ≠ []) by discriminate.
  split; [exact H1 |]. split; [exact H2 |].
  exact (proj2 (proj2 (countLineDifferences_new_file (u16 "y"))) H1 H2).
Defined.

(** ** More on the per-file entry *)

Lemma getFileDiff_entry h workingDir path :
  ∃ committed current,
    getOriginalFromHead h workingDir path = Returned committed
    ∧ getCurrentFromDisk h path = Returned current
    ∧ getFileDiff h workingDir path = Returned (changeEntry path committed current).
Proof.
  eexists _, _. split; [apply getOriginalFromHead_value |].
  split; [apply getCurrentFromDisk_value |].
  apply getFileDiff_value; [apply getOriginalFromHead_value | apply getCurrentFromDisk_value].
Qed.

Lemma changeEntry_status path committed current :
  (status (changeEntry path committed current) = Added
   ↔ committed = [] ∧ current ≠ [])
  ∧ (status (changeEntry path committed current) = Deleted
     ↔ committed ≠ [] ∧ current = []).
Proof.
  unfold changeEntry, getChangeStatus. case_bool_decide as Hcmp; simpl.
  - subst. split; (split; [done | intros [? ?]; congruence]).
  - destruct committed, current; simpl; split; split; try done; intros [? ?]; done.
Qed.

Lemma linesAbsent_empty_other side :
  linesAbsent side [] = length (filter (fun line => line ≠ []) (split LF side)).
Proof.
  unfold linesAbsent. simpl. apply (f_equal length), list_filter_iff.
  intros line. by rewrite list_elem_of_singleton.
Qed.

(** X6: the entry of [getFileDiff] is the zero-valued placeholder exactly
    when the content at HEAD and the content on disk are identical, and it
    is then the only entry whose two snapshots are both empty. *)
Theorem getFileDiff_placeholder_iff h workingDir path :
  ∃ committed current change,
    getOriginalFromHead h workingDir path = Returned committed
    ∧ getCurrentFromDisk h path = Returned current
    ∧ getFileDiff h workingDir path = Returned change
    ∧ (change = placeholder path ↔ committed = current)
    ∧ (original change = [] ∧ modified change = [] ↔ committed = current).
Proof.
  destruct (getFileDiff_entry h workingDir path) as (committed & current & Hc & Hd & He).
  exists committed, current, (changeEntry path committed current).
  split_and!; try done; unfold changeEntry; case_bool_decide as Hcmp; simpl.
  - done.
  - split; [| done]. intros [= _ _ _ -> ->]. done.
  - done.
  - split; [| done]. intros [-> ->]. done.
Qed.

(** X7: the status of the entry of [getFileDiff] is ['added'] exactly when
    the content at HEAD is empty and the content on disk is not, ['deleted']
    exactly when the content at HEAD is not empty and the content on disk
    is; the entry handed to the overlay has tool type [Write] in the first
    case and [Edit] in every other. *)
Theorem getFileDiff_status h workingDir path :
  ∃ committed current change,
    getOriginalFromHead h workingDir path = Returned committed
    ∧ getCurrentFromDisk h path = Returned current
    ∧ getFileDiff h workingDir path = Returned change
    ∧ (status change = Added ↔ committed = [] ∧ current ≠ [])
    ∧ (status change = Deleted ↔ committed ≠ [] ∧ current = [])
    ∧ (toolTypeOf change = Write ↔ committed = [] ∧ current ≠ []).
Proof.
  destruct (getFileDiff_entry h workingDir path) as (committed & current & Hc & Hd & He).
  exists committed, current, (changeEntry path committed current).
  destruct (changeEntry_status path committed current) as [Hadded Hdeleted].
  split_and!; try done.
  rewrite <- Hadded. unfold toolTypeOf. by case_bool_decide.
Qed.

(** X8: when [git show] fails, as it does outside a repository or for a file
    that HEAD does not have, a file with content on disk gets an entry with
    status ['added'], an empty original and the disk content as modified
    text; when the file is missing on disk and HEAD has content for it, the
    entry has status ['deleted'] and an empty modified text. *)
Theorem getFileDiff_untracked_or_missing h workingDir path :
  (¬ succeeded (gitShowHead h workingDir (relativePathOf h workingDir path)) →
   ∀ current, getCurrentFromDisk h path = Returned current → current ≠ [] →
   ∃ change, getFileDiff h workingDir path = Returned change
             ∧ status change = Added
             ∧ original change = [] ∧ modified change = current)
  ∧ (existsSync h path = false →
     ∀ committed, getOriginalFromHead h workingDir path = Returned committed →
     committed ≠ [] →
     ∃ change, getFileDiff h workingDir path = Returned change
               ∧ status change = Deleted
               ∧ original change = committed ∧ modified change = []).
Proof.
  split.
  - intros Hgit current Hd Hne.
    assert (Hc : getOriginalFromHead h workingDir path = Returned []).
    { rewrite getOriginalFromHead_value.
      destruct (gitShowHead _ _ _) as [content | reason]; [| done].
      destruct Hgit. by exists content. }
    eexists. split; [by apply getFileDiff_value |].
    rewrite bool_decide_eq_false_2 by done. by destruct current.
  - intros Hmissing committed Hc Hne.
    assert (Hd : getCurrentFromDisk h path = Returned []).
    { rewrite getCurrentFromDisk_value. by rewrite Hmissing. }
    eexists. split; [by apply getFileDiff_value |].
    rewrite bool_decide_eq_false_2 by done. by destruct committed.
Qed.

Lemma getFileDiff_untracked_or_missing_witness :
  ∃ change, getFileDiff noGitHost (u16 "/repo") (u16 "/repo/b.txt") = Returned change
            ∧ status change = Added
            ∧ original change = [] ∧ modified change = u16 "y".
Proof.
  apply (proj1 (getFileDiff_untracked_or_missing noGitHost (u16 "/repo") (u16 "/repo/b.txt"))).
  - intros [content Hc]. vm_compute in Hc. discriminate.
  - vm_compute. reflexivity.
  - discriminate.
Defined.

(** X9: beside the file name, the list shows nothing for an entry whose two
    contents are identical, always shows something for an entry with status
    ['added'], and shows the mark [new] exactly when the content at HEAD is
    empty and the content on disk is not empty but has only empty lines. *)
Theorem lineCountBadges_of_entry h workingDir path :
  ∃ committed current change,
    getOriginalFromHead h workingDir path = Returned committed
    ∧ getCurrentFromDisk h path = Returned current
    ∧ getFileDiff h workingDir path = Returned change
    ∧ (committed = current → lineCountBadges change = [])
    ∧ (status change = Added → lineCountBadges change ≠ [])
    ∧ (New ∈ lineCountBadges change
       ↔ committed = [] ∧ current ≠ []
         ∧ Forall (fun line => line = []) (split LF current)).
Proof.
  destruct (getFileDiff_entry h workingDir path) as (committed & current & Hc & Hd & He).
  exists committed, current, (changeEntry path committed current).
  destruct (changeEntry_status path committed current) as [Hadded _].
  split_and!; try done.
  - intros Hsame. unfold changeEntry. by rewrite bool_decide_eq_true_2.
  - intros Hs. unfold lineCountBadges. rewrite Hs.
    destruct (additions (changeEntry path committed current)); simpl; [| done].
    by destruct (0 <? deletions _)%nat.
  - assert (Hnew : New ∈ lineCountBadges (changeEntry path committed current)
                   ↔ status (changeEntry path committed current) = Added
                     ∧ additions (changeEntry path committed current) = 0%nat).
    { unfold lineCountBadges.
      destruct (0 <? additions _)%nat, (0 <? deletions _)%nat; simpl;
        case_bool_decide as Hs; simpl;
        destruct (Nat.eqb_spec (additions (changeEntry path committed current)) 0);
        simpl; rewrite ?elem_of_cons, ?elem_of_nil; split; try tauto;
        intros; repeat match goal with H : _ ∨ _ |- _ => destruct H end;
        try discriminate; try tauto; auto. }
    rewrite Hnew, Hadded. split.
    + intros [[-> Hne] Hzero]. split_and!; try done.
      revert Hzero. unfold changeEntry. rewrite bool_decide_eq_false_2 by done.
      rewrite countLineDifferences_lines. cbn [additions LineCounts.additions].
      rewrite linesAbsent_empty_other, length_zero_iff_nil. intros Hnil.
      apply Forall_forall. intros line Hin.
      destruct (decide (line = [])) as [| Hline]; [done |].
      by destruct (filter_nil_not_elem_of _ _ line Hnil Hline).
    + intros (-> & Hne & Hall). split; [done |].
      unfold changeEntry. rewrite bool_decide_eq_false_2 by done.
      rewrite countLineDifferences_lines. cbn [additions LineCounts.additions].
      rewrite linesAbsent_empty_other, length_zero_iff_nil.
      induction Hall as [| line lines Hline _ IH]; [done |].
      by rewrite filter_cons_False by (intros Hcontra; done).
Qed.

Lemma lineCountBadges_of_entry_witness :
  ∃ change,
    getFileDiff sampleHost (u16 "/repo") (u16 "/repo/a.txt") = Returned change
    ∧ lineCountBadges change = [].
Proof.
  destruct (lineCountBadges_of_entry sampleHost (u16 "/repo") (u16 "/repo/a.txt"))
    as (committed & current & change & Hc & Hd & He & Hsame & _).
  exists change. split; [exact He |].
  apply Hsame. vm_compute in Hc, Hd. congruence.
Defined.

(** ** More on touched files *)

Lemma touchedSet_app messages more :
  touchedSet (messages ++ more)
  = foldl (fun files msg =>
             match touchedPath msg with
             | Some filePath => JSSet.add filePath files
             | None => files
             end)
          (touchedSet messages) more.
Proof. unfold touchedSet. by rewrite foldl_app. Qed.

Lemma touchedPath_field msg path :
  touchedPath msg = Some path →
  str_truthy (trim path) = true
  ∧ ∃ input, toolInput msg = Some input
             ∧ (prop input "file_path" = JString path
                ∨ prop input "path" = JString path).
Proof.
  intros Hpath. destruct (touchedPath_Some _ _ Hpath) as (input & Hq).
  rewrite (touchedPath_qualifies _ _ Hq) in Hpath.
  assert (Hor : js_or (prop input "file_path") (prop input "path") = prop input "file_path"
                ∨ js_or (prop input "file_path") (prop input "path") = prop input "path")
    by (unfold js_or; destruct (truthy _); auto).
  destruct (js_or _ _) as [| | | | s |] eqn:E; try done.
  simpl in Hpath. destruct (str_truthy (trim s)) eqn:Htrim; [| done].
  injection Hpath as ->. split; [done |].
  exists input. split; [apply Hq |]. destruct Hor as [<- | <-]; auto.
Qed.

Lemma JSSet_add_length (x : jsstring) (s : list jsstring) :
  (length (JSSet.add x s) ≤ S (length s))%nat.
Proof.
  unfold JSSet.add. destruct (JSSet.has x s); [lia |].
  rewrite length_app. simpl. lia.
Qed.

(** X10: every path that [getSessionTouchedFiles] returns is, unchanged and
    untrimmed, the string held by the [file_path] or the [path] field of the
    input of one of the messages, and it has a character that is not white
    space; in particular the empty string is never returned. *)
Theorem getSessionTouchedFiles_paths_verbatim localeCompare messages path :
  path ∈ getSessionTouchedFiles localeCompare messages →
  str_truthy (trim path) = true
  ∧ path ≠ []
  ∧ ∃ msg input,
      msg ∈ messages ∧ toolInput msg = Some input
      ∧ (prop input "file_path" = JString path ∨ prop input "path" = JString path).
Proof.
  intros (msg & Hin & Hpath)%elem_of_getSessionTouchedFiles.
  destruct (touchedPath_field _ _ Hpath) as (Htrim & input & Hinput & Hfield).
  split_and!; [done | by intros -> |]. by exists msg, input.
Qed.

Lemma getSessionTouchedFiles_paths_verbatim_witness :
  u16 "B" ∈ getSessionTouchedFiles collate [edit_a; write_B]
  ∧ str_truthy (trim (u16 "B")) = true.
Proof.
  assert (Hin : u16 "B" ∈ getSessionTouchedFiles collate [edit_a; write_B])
    by (apply (bool_decide_unpack _); vm_compute; exact I).
  split; [exact Hin |].
  exact (proj1 (getSessionTouchedFiles_paths_verbatim collate _ _ Hin)).
Defined.

(** X11: the files touched by two histories put one after the other are the
    files touched by the first together with the files touched by the
    second. *)
Theorem getSessionTouchedFiles_app localeCompare messages more path :
  path ∈ getSessionTouchedFiles localeCompare (messages ++ more)
  ↔ path ∈ getSessionTouchedFiles localeCompare messages
    ∨ path ∈ getSessionTouchedFiles localeCompare more.
Proof.
  rewrite !elem_of_getSessionTouchedFiles. split.
  - intros (msg & [Hin | Hin]%elem_of_app & Hpath); [left | right]; by exists msg.
  - intros [(msg & Hin & Hpath) | (msg & Hin & Hpath)];
      exists msg; (split; [apply elem_of_app; auto | done]).
Qed.

(** X12: messages that only name files already touched do not change the
    result, whatever the comparison function is; so a history followed by a
    copy of itself gives the result of the history alone. *)
Theorem getSessionTouchedFiles_known_files localeCompare messages :
  (∀ more,
     (∀ msg path, msg ∈ more → touchedPath msg = Some path →
                  path ∈ getSessionTouchedFiles localeCompare messages) →
     getSessionTouchedFiles localeCompare (messages ++ more)
     = getSessionTouchedFiles localeCompare messages)
  ∧ getSessionTouchedFiles localeCompare (messages ++ messages)
    = getSessionTouchedFiles localeCompare messages.
Proof.
  assert (Hknown : ∀ more,
    (∀ msg path, msg ∈ more → touchedPath msg = Some path →
                 path ∈ touchedSet messages) →
    touchedSet (messages ++ more) = touchedSet messages).
  { intros more. rewrite touchedSet_app. generalize (touchedSet messages) as files.
    induction more as [| msg more IH]; intros files Hmore; simpl; [done |].
    destruct (touchedPath msg) as [path |] eqn:E.
    - assert (Hin : path ∈ files) by (apply (Hmore msg); [left | done]).
      unfold JSSet.add. rewrite (proj2 (JSSetFacts.has_true path files) Hin).
      apply IH. intros msg' path' Hin'. apply Hmore. by right.
    - apply IH. intros msg' path' Hin'. apply Hmore. by right. }
  split.
  - intros more Hmore. unfold getSessionTouchedFiles. rewrite Hknown; [done |].
    intros msg path Hin Hpath.
    rewrite <- (getSessionTouchedFiles_Permutation localeCompare). eauto.
  - unfold getSessionTouchedFiles. rewrite Hknown; [done |].
    intros msg path Hin Hpath. apply elem_of_touchedSet. eauto.
Qed.

Lemma getSessionTouchedFiles_known_files_witness :
  getSessionTouchedFiles collate ([edit_a; write_B] ++ [read_a; write_B])
  = getSessionTouchedFiles collate [edit_a; write_B].
Proof.
  apply (proj1 (getSessionTouchedFiles_known_files collate [edit_a; write_B])).
  intros msg path Hin Hpath.
  apply elem_of_cons in Hin as [-> | Hin]; [vm_compute in Hpath; discriminate |].
  apply list_elem_of_singleton in Hin as ->.
  vm_compute in Hpath. injection Hpath as <-.
  apply (bool_decide_unpack _). vm_compute. exact I.
Defined.

(** X13: the result has no more paths than there are messages that reach
    [files.add], hence no more than there are messages. *)
Theorem getSessionTouchedFiles_length localeCompare messages :
  (length (getSessionTouchedFiles localeCompare messages)
   ≤ length (filter (fun msg => is_Some (touchedPath msg)) messages))%nat
  ∧ (length (getSessionTouchedFiles localeCompare messages) ≤ length messages)%nat.
Proof.
  assert (Hlen : (length (getSessionTouchedFiles localeCompare messages)
                  ≤ length (filter (fun msg => is_Some (touchedPath msg)) messages))%nat).
  { rewrite getSessionTouchedFiles_Permutation.
    induction messages as [| msg messages IH] using rev_ind; [done |].
    rewrite touchedSet_snoc, filter_app, length_app.
    destruct (touchedPath msg) as [path |] eqn:E.
    - rewrite filter_cons_True by (by rewrite E). simpl.
      pose proof (JSSet_add_length path (touchedSet messages)). lia.
    - rewrite filter_cons_False by (rewrite E; by intros [? ?]). simpl. lia. }
  split; [done |]. etrans; [exact Hlen | apply length_filter].
Qed.

(** ** Indices and slices *)

Lemma lastIndexOf_bounds c s :
  (-1 ≤ lastIndexOf c s < Z.of_nat (length s))%Z.
Proof.
  induction s as [| x s IH]; simpl; [lia |].
  destruct (Z.leb_spec 0 (lastIndexOf c s)); [lia |].
  destruct (x =? c); lia.
Qed.

Lemma lastIndexOf_absent c s : c ∉ s → lastIndexOf c s = (-1)%Z.
Proof.
  induction s as [| x s IH]; intros Hout; simpl; [done |].
  apply not_elem_of_cons in Hout as [Hne Hout]. rewrite (IH Hout). simpl.
  by destruct (N.eqb_spec x c) as [-> | _].
Qed.

Lemma lastIndexOf_last c stem ext :
  c ∉ ext → lastIndexOf c (stem ++ c :: ext) = Z.of_nat (length stem).
Proof.
  intros Hout. induction stem as [| x stem IH].
  - simpl. rewrite (lastIndexOf_absent _ _ Hout). simpl. by rewrite N.eqb_refl.
  - change ((x :: stem) ++ c :: ext) with (x :: (stem ++ c :: ext)).
    cbn [lastIndexOf]. rewrite IH.
    destruct (Z.leb_spec 0 (Z.of_nat (length stem))); simpl length; lia.
Qed.

Lemma lastIndexOf_fmap (f : N → N) c s :
  (∀ x, f x = c ↔ x = c) →
  lastIndexOf c (map f s) = lastIndexOf c s.
Proof.
  intros Hf. induction s as [| x s IH]; simpl; [done |]. rewrite IH.
  destruct (0 <=? lastIndexOf c s)%Z; [done |].
  destruct (N.eqb_spec (f x) c) as [Hfx | Hfx], (N.eqb_spec x c) as [Hx | Hx];
    try done.
  - apply (proj1 (Hf x)) in Hfx. contradiction.
  - apply (proj2 (Hf x)) in Hx. contradiction.
Qed.

Lemma sliceFrom_drop {A} (i : nat) (l : list A) :
  (i ≤ length l)%nat → sliceFrom (Z.of_nat i) l = drop i l.
Proof.
  intros Hi. unfold sliceFrom, slice.
  destruct (Z.ltb_spec (Z.of_nat i) 0); [lia |].
  destruct (Z.ltb_spec (Z.of_nat (length l)) 0); [lia |].
  rewrite !Z.min_l, Nat2Z.id by lia.
  apply take_ge. rewrite length_drop. lia.
Qed.

Lemma sliceFrom_last_length {A} (l : list A) :
  (length (sliceFrom (-1) l) ≤ 1)%nat.
Proof.
  unfold sliceFrom, slice. rewrite length_take.
  change (-1 <? 0)%Z with true. cbv iota.
  destruct (Z.ltb_spec (Z.of_nat (length l)) 0); [lia |].
  etrans; [apply Nat.le_min_l | lia].
Qed.

Lemma slice_two_before_last {A} (front : list A) (a b c : A) :
  slice (-3) (-1) (front ++ [a; b; c]) = [a; b].
Proof.
  unfold slice. rewrite length_app. simpl length.
  change (-3 <? 0)%Z with true. change (-1 <? 0)%Z with true. cbv iota.
  replace (Z.max (Z.of_nat (length front + 3) + -3) 0) with (Z.of_nat (length front))
    by lia.
  replace (Z.max (Z.of_nat (length front + 3) + -1) 0 - Z.of_nat (length front))%Z
    with 2%Z by lia.
  rewrite Nat2Z.id, drop_app_length. done.
Qed.

(** ** Binary files *)

Lemma binaryExtensions_shape :
  Forall (fun ext => (3 ≤ length ext)%nat ∧ SLASH ∉ ext) binaryExtensions.
Proof. apply (bool_decide_unpack _). vm_compute. exact I. Qed.

Lemma lowerUnit_ascii c : c < 128 → lowerUnit c < 128.
Proof.
  unfold lowerUnit. intros Hc.
  destruct (N.leb_spec 65 c), (N.leb_spec c 90); simpl; lia.
Qed.

Lemma lowerUnit_idemp c : lowerUnit (lowerUnit c) = lowerUnit c.
Proof.
  unfold lowerUnit. destruct ((65 <=? c) && (c <=? 90)) eqn:E; [| by rewrite E].
  apply andb_true_iff in E as [H1%N.leb_le H2%N.leb_le].
  destruct (N.leb_spec 65 (c + 32)), (N.leb_spec (c + 32) 90); simpl; try done; lia.
Qed.

Lemma lowerUnit_keeps (d : N) c :
  (d < 65 ∨ 122 < d) → lowerUnit c = d ↔ c = d.
Proof.
  unfold lowerUnit. intros Hd.
  destruct (N.leb_spec 65 c), (N.leb_spec c 90); simpl; lia.
Qed.

Lemma toLowerCase_ascii s : isAscii s → isAscii (toLowerCase s).
Proof.
  unfold isAscii, toLowerCase. intros Hs. apply Forall_map.
  eapply Forall_impl; [exact Hs |]. apply lowerUnit_ascii.
Qed.

Lemma toLowerCase_idemp s : toLowerCase (toLowerCase s) = toLowerCase s.
Proof.
  unfold toLowerCase. rewrite map_map. apply map_ext. intros c. apply lowerUnit_idemp.
Qed.

Lemma isBinaryFile_ascii lowerCase path :
  lowersAscii lowerCase → isAscii path →
  isBinaryFile lowerCase path
  = bool_decide (sliceFrom (lastIndexOf DOT path) (toLowerCase path) ∈ binaryExtensions).
Proof. intros Hlower Hpath. unfold isBinaryFile. by rewrite (Hlower _ Hpath). Qed.

Lemma isBinaryFile_ascii_ext lowerCase stem ext :
  lowersAscii lowerCase → isAscii stem → isAscii ext → DOT ∉ ext →
  isBinaryFile lowerCase (stem ++ DOT :: ext)
  = bool_decide (DOT :: toLowerCase ext ∈ binaryExtensions).
Proof.
  intros Hlower Hstem Hext Hdot.
  rewrite isBinaryFile_ascii; [| done |].
  - rewrite (lastIndexOf_last _ _ _ Hdot). unfold toLowerCase.
    rewrite sliceFrom_drop by (rewrite length_map, length_app; lia).
    rewrite map_app, <- (length_map lowerUnit stem), drop_app_length. done.
  - apply Forall_app. split; [done |]. constructor; [done | done].
Qed.

(** X14: a path without a dot is never a binary file, whatever the lower
    case of the path is. *)
Theorem isBinaryFile_no_dot lowerCase path :
  DOT ∉ path → isBinaryFile lowerCase path = false.
Proof.
  intros Hdot. unfold isBinaryFile. rewrite (lastIndexOf_absent _ _ Hdot).
  apply bool_decide_eq_false. intros Hin.
  pose proof (proj1 (Forall_forall _ _) binaryExtensions_shape _ Hin) as [Hlen _].
  pose proof (sliceFrom_last_length (lowerCase path)). lia.
Qed.

Lemma isBinaryFile_no_dot_witness :
  (DOT ∉ u16 "/repo/Makefile") ∧ isBinaryFile toLowerCase (u16 "/repo/Makefile") = false.
Proof.
  assert (H : DOT ∉ u16 "/repo/Makefile")
    by (apply (bool_decide_unpack _); vm_compute; exact I).
  split; [exact H |]. exact (isBinaryFile_no_dot toLowerCase _ H).
Defined.

(** X15: for an ASCII path, only the text from the last dot on decides: the
    path is a binary file exactly when that text, in lower case, is one of
    the listed extensions, so "archive.tar.gz" is judged by ".gz" alone. *)
Theorem isBinaryFile_last_extension lowerCase stem ext :
  lowersAscii lowerCase → isAscii stem → isAscii ext → DOT ∉ ext →
  isBinaryFile lowerCase (stem ++ DOT :: ext) = true
  ↔ DOT :: toLowerCase ext ∈ binaryExtensions.
Proof.
  intros Hlower Hstem Hext Hdot.
  rewrite (isBinaryFile_ascii_ext _ _ _ Hlower Hstem Hext Hdot).
  apply bool_decide_eq_true.
Qed.

Lemma toLowerCase_lowersAscii : lowersAscii toLowerCase.
Proof. by intros s _. Qed.

Lemma isBinaryFile_last_extension_witness :
  isBinaryFile toLowerCase (u16 "/repo/photo.old" ++ DOT :: u16 "PNG") = true.
Proof.
  apply (isBinaryFile_last_extension toLowerCase (u16 "/repo/photo.old") (u16 "PNG")).
  - exact toLowerCase_lowersAscii.
  - apply (bool_decide_unpack _). vm_compute. exact I.
  - apply (bool_decide_unpack _). vm_compute. exact I.
  - apply (bool_decide_unpack _). vm_compute. exact I.
  - apply (bool_decide_unpack _). vm_compute. exact I.
Defined.

(** X16: two ASCII paths that differ only in the case of their letters get
    the same answer. *)
Theorem isBinaryFile_ignores_case lowerCase path path' :
  lowersAscii lowerCase → isAscii path → isAscii path' →
  toLowerCase path = toLowerCase path' →
  isBinaryFile lowerCase path = isBinaryFile lowerCase path'.
Proof.
  intros Hlower Hp Hp' Hsame.
  rewrite !isBinaryFile_ascii by done.
  assert (Hidx : ∀ s, lastIndexOf DOT s = lastIndexOf DOT (toLowerCase s)).
  { intros s. symmetry. apply lastIndexOf_fmap. intros c.
    apply lowerUnit_keeps. left. reflexivity. }
  by rewrite (Hidx path), (Hidx path'), Hsame.
Qed.

Lemma isBinaryFile_ignores_case_witness :
  isBinaryFile toLowerCase (u16 "A.Png") = isBinaryFile toLowerCase (u16 "a.pNG").
Proof.
  apply (isBinaryFile_ignores_case toLowerCase).
  - exact toLowerCase_lowersAscii.
  - apply (bool_decide_unpack _). vm_compute. exact I.
  - apply (bool_decide_unpack _). vm_compute. exact I.
  - vm_compute. reflexivity.
Defined.

(** X17: an ASCII path whose last dot is followed by a slash, that is, a file
    without extension below a directory with a dot in its name, is never a
    binary file, whatever follows the dot in the name of the directory. *)
Theorem isBinaryFile_dot_in_directory lowerCase stem rest :
  lowersAscii lowerCase → isAscii stem → isAscii rest →
  DOT ∉ rest → SLASH ∈ rest →
  isBinaryFile lowerCase (stem ++ DOT :: rest) = false.
Proof.
  intros Hlower Hstem Hrest Hdot Hslash.
  rewrite (isBinaryFile_ascii_ext _ _ _ Hlower Hstem Hrest Hdot).
  apply bool_decide_eq_false. intros Hin.
  pose proof (proj1 (Forall_forall _ _) binaryExtensions_shape _ Hin) as [_ Hno].
  apply Hno. right. unfold toLowerCase.
  apply list_elem_of_fmap. exists SLASH. split; [reflexivity | done].
Qed.

Lemma isBinaryFile_dot_in_directory_witness :
  isBinaryFile toLowerCase (u16 "/assets" ++ DOT :: u16 "png/README") = false.
Proof.
  apply (isBinaryFile_dot_in_directory toLowerCase (u16 "/assets") (u16 "png/README")).
  - exact toLowerCase_lowersAscii.
  - apply (bool_decide_unpack _). vm_compute. exact I.
  - apply (bool_decide_unpack _). vm_compute. exact I.
  - apply (bool_decide_unpack _). vm_compute. exact I.
  - apply (bool_decide_unpack _). vm_compute. exact I.
Defined.

(** ** Language of a path *)




(** ** Statistics of a parsed diff *)

Lemma getDiffStats_sums fileDiff :
  getDiffStats fileDiff
  = {| LineCounts.additions := sum_list_with additionCount (hunks fileDiff);
       LineCounts.deletions := sum_list_with deletionCount (hunks fileDiff) |}.
Proof.
  unfold getDiffStats.
  enough (H : ∀ l a d,
    foldl (fun '(additions, deletions) hunk =>
             ((additions + additionCount hunk)%nat, (deletions + deletionCount hunk)%nat))
          (a, d) l
    = ((a + sum_list_with additionCount l)%nat, (d + sum_list_with deletionCount l)%nat))
    by (by rewrite H).
  induction l as [| hunk l IH]; intros a d; simpl.
  - f_equal; lia.
  - rewrite IH. f_equal; lia.
Qed.

(** X19: the statistics of a diff whose hunks are those of two diffs put
    together are the sums of the statistics of the two, and the order of the
    hunks does not matter. *)
Theorem getDiffStats_additive :
  (∀ hunks1 hunks2,
     LineCounts.additions (getDiffStats {| hunks := hunks1 ++ hunks2 |})
     = (LineCounts.additions (getDiffStats {| hunks := hunks1 |})
        + LineCounts.additions (getDiffStats {| hunks := hunks2 |}))%nat
     ∧ LineCounts.deletions (getDiffStats {| hunks := hunks1 ++ hunks2 |})
       = (LineCounts.deletions (getDiffStats {| hunks := hunks1 |})
          + LineCounts.deletions (getDiffStats {| hunks := hunks2 |}))%nat)
  ∧ (∀ hunks1 hunks2, hunks1 ≡ₚ hunks2 →
       getDiffStats {| hunks := hunks1 |} = getDiffStats {| hunks := hunks2 |}).
Proof.
  split.
  - intros hunks1 hunks2. rewrite !getDiffStats_sums. simpl.
    by rewrite !sum_list_with_app.
  - intros hunks1 hunks2 Hperm. rewrite !getDiffStats_sums. simpl.
    by rewrite Hperm.
Qed.

Lemma getDiffStats_additive_witness :
  [ {| additionCount := 1; deletionCount := 2 |};
    {| additionCount := 3; deletionCount := 0 |} ]
  ≡ₚ [ {| additionCount := 3; deletionCount := 0 |};
       {| additionCount := 1; deletionCount := 2 |} ]
  ∧ getDiffStats {| hunks := [ {| additionCount := 1; deletionCount := 2 |};
                               {| additionCount := 3; deletionCount := 0 |} ] |}
    = getDiffStats {| hunks := [ {| additionCount := 3; deletionCount := 0 |};
                                 {| additionCount := 1; deletionCount := 2 |} ] |}.
Proof.
  split; [apply perm_swap |].
  apply (proj2 getDiffStats_additive). apply perm_swap.
Defined.

(** ** File name and parent directory *)

(** X20: the name shown for a path is the text after its last slash; a path
    that ends with a slash is shown whole, and so is a path without slash;
    the name is always a suffix of the path and is empty only for the empty
    path. *)
Theorem getFileName_result :
  (∀ dir name, SLASH ∉ name → name ≠ [] →
     getFileName (dir ++ SLASH :: name) = name)
  ∧ (∀ dir, getFileName (dir ++ [SLASH]) = dir ++ [SLASH])
  ∧ (∀ path, SLASH ∉ path → getFileName path = path)
  ∧ (∀ path, getFileName path `suffix_of` path)
  ∧ (∀ path, getFileName path = [] → path = []).
Proof.
  assert (Hlast : ∀ dir name, SLASH ∉ name →
            last (split SLASH (dir ++ SLASH :: name)) = Some name).
  { intros dir name Hname. by rewrite last_split_app_sep, split_no_sep. }
  assert (Hplain : ∀ path, SLASH ∉ path → getFileName path = path).
  { intros path Hpath. unfold getFileName. rewrite split_no_sep by done. simpl.
    by destruct path. }
  assert (Hsuffix : ∀ path, getFileName path `suffix_of` path).
  { intros path. unfold getFileName.
    destruct (last (split SLASH path)) as [name |] eqn:E; [| done].
    destruct (str_truthy name); [| done].
    apply last_Some in E as [front Hsplit].
    rewrite <- (join_split SLASH path). rewrite Hsplit.
    clear Hsplit. induction front as [| part front IH]; [done |].
    simpl. destruct (front ++ [name]) eqn:Hf; [by destruct front |].
    rewrite <- Hf in *. clear Hf.
    destruct IH as [prefix ->]. exists (part ++ SLASH :: prefix).
    by rewrite <- app_assoc. }
  split_and!; try done.
  - intros dir name Hname Hne. unfold getFileName. rewrite Hlast by done.
    by destruct name.
  - intros dir. unfold getFileName. rewrite Hlast by apply not_elem_of_nil. done.
  - intros path Hempty. unfold getFileName in Hempty.
    destruct (last (split SLASH path)) as [[| c name] |]; simpl in Hempty; done.
Qed.

Lemma getFileName_result_witness :
  getFileName (u16 "/repo/src" ++ SLASH :: u16 "main.ts") = u16 "main.ts".
Proof.
  apply (proj1 getFileName_result).
  - apply (bool_decide_unpack _). vm_compute. exact I.
  - discriminate.
Defined.

(** X21: the parent directory shown for a path is empty when the path has
    fewer than two slashes; otherwise it is made of the two segments before
    the last one, joined by a slash, whatever comes before them. *)
Theorem getParentDir_result :
  (∀ path, (length (filter (fun c => c = SLASH) path) ≤ 1)%nat →
     getParentDir path = [])
  ∧ (∀ d1 d2 name, SLASH ∉ d1 → SLASH ∉ d2 → SLASH ∉ name →
       getParentDir (d1 ++ SLASH :: d2 ++ SLASH :: name) = d1 ++ SLASH :: d2)
  ∧ (∀ front d1 d2 name, SLASH ∉ d1 → SLASH ∉ d2 → SLASH ∉ name →
       getParentDir (front ++ SLASH :: d1 ++ SLASH :: d2 ++ SLASH :: name)
       = d1 ++ SLASH :: d2).
Proof.
  assert (Hthree : ∀ parts d1 d2 name,
            (if (length (parts ++ [d1; d2; name]) <=? 2)%nat then []
             else join SLASH (slice (-3) (-1) (parts ++ [d1; d2; name])))
            = d1 ++ SLASH :: d2).
  { intros parts d1 d2 name.
    destruct (Nat.leb_spec (length (parts ++ [d1; d2; name])) 2) as [Hlen | _].
    - rewrite length_app in Hlen. simpl in Hlen. lia.
    - by rewrite slice_two_before_last. }
  split_and!.
  - intros path Hfew. unfold getParentDir. rewrite length_split.
    destruct (Nat.leb_spec (S (length (filter (fun c => c = SLASH) path))) 2); [done | lia].
  - intros d1 d2 name H1 H2 Hn. unfold getParentDir.
    rewrite !split_app_sep, !split_no_sep by done. apply (Hthree []).
  - intros front d1 d2 name H1 H2 Hn. unfold getParentDir.
    rewrite !split_app_sep, (split_no_sep _ d1), (split_no_sep _ d2),
      (split_no_sep _ name) by done.
    apply (Hthree (split SLASH front)).
Qed.

Lemma getParentDir_result_witness :
  getParentDir (u16 "/repo" ++ SLASH :: u16 "src" ++ SLASH :: u16 "ui" ++ SLASH :: u16 "main.ts")
  = u16 "src" ++ SLASH :: u16 "ui".
Proof.
  apply (proj2 (proj2 getParentDir_result) (u16 "/repo") (u16 "src") (u16 "ui") (u16 "main.ts"));
    apply (bool_decide_unpack _); vm_compute; exact I.
Defined.

(** ** Stability of the sort *)

Lemma filter_none {A} (P : A → Prop) `{∀ x, Decision (P x)} (l : list A) :
  Forall (fun x => ¬ P x) l → filter P l = [].
Proof.
  induction 1 as [| x l Hx _ IH]; [done |]. by rewrite filter_cons_False.
Qed.

Section SortStable.
Context {A : Type} (comparefn : A → A → Z) (Hcmp : consistent comparefn).

Lemma comparefn_zero_flip a b : comparefn a b = 0%Z → comparefn b a = 0%Z.
Proof.
  intros Hab. pose proof (comparefn_flip _ Hcmp a b) as Hflip.
  rewrite Hab in Hflip. simpl in Hflip. by apply Z.sgn_null_iff.
Qed.

Lemma comparefn_after_not_equal a x z :
  comparefn a x = 0%Z → (0 < comparefn z x)%Z → comparefn a z ≠ 0%Z.
Proof.
  intros Hax Hzx Haz.
  assert (comparefn z a ≤ 0)%Z by (rewrite (comparefn_zero_flip _ _ Haz); lia).
  assert (comparefn a x ≤ 0)%Z by lia.
  pose proof (comparefn_trans _ Hcmp z a x). lia.
Qed.

Lemma insert_sorted_stable a x l :
  StronglySorted (not_after comparefn) l →
  filter (fun z => comparefn a z = 0%Z) (insert_sorted comparefn x l)
  = filter (fun z => comparefn a z = 0%Z) (l ++ [x]).
Proof.
  induction l as [| y l IH]; intros Hl; simpl; [done |].
  apply StronglySorted_inv in Hl as [Hl Hy].
  destruct (0 <? comparefn y x)%Z eqn:E.
  - apply Z.ltb_lt in E.
    change (y :: l ++ [x]) with ((y :: l) ++ [x]). rewrite filter_app.
    destruct (decide (comparefn a x = 0%Z)) as [Hax | Hax].
    + assert (Hnone : filter (fun z => comparefn a z = 0%Z) (y :: l) = []).
      { apply filter_none. constructor.
        - by apply (comparefn_after_not_equal a x).
        - apply Forall_forall. intros z Hz.
          apply (comparefn_after_not_equal a x); [done |].
          pose proof (proj1 (Forall_forall _ _) Hy z Hz) as Hyz.
          unfold not_after in Hyz.
          destruct (Z.lt_ge_cases 0 (comparefn z x)) as [| Hzx]; [done |].
          pose proof (comparefn_trans _ Hcmp y z x). lia. }
      rewrite filter_cons_True by done. rewrite Hnone.
      by rewrite filter_cons_True, filter_nil by done.
    + rewrite filter_cons_False by done.
      by rewrite (filter_cons_False _ x []), filter_nil, app_nil_r by done.
  - rewrite !filter_cons. by rewrite IH.
Qed.

Lemma sort_stable a l :
  filter (fun z => comparefn a z = 0%Z) (sort comparefn l)
  = filter (fun z => comparefn a z = 0%Z) l.
Proof.
  unfold sort.
  enough (H : ∀ acc, StronglySorted (not_after comparefn) acc →
    filter (fun z => comparefn a z = 0%Z)
      (foldl (fun sorted x => insert_sorted comparefn x sorted) acc l)
    = filter (fun z => comparefn a z = 0%Z) (acc ++ l))
    by (apply (H []); constructor).
  induction l as [| x l IH]; intros acc Hacc; simpl.
  - by rewrite app_nil_r.
  - rewrite IH.
    + change (acc ++ x :: l) with (acc ++ [x] ++ l). rewrite app_assoc.
      by rewrite !filter_app, insert_sorted_stable, filter_app by done.
    + apply Sorted_StronglySorted; [by apply not_after_trans |].
      apply insert_sorted_Sorted; [done |]. by apply StronglySorted_Sorted.
Qed.
End SortStable.

Lemma foldl_add_firstOccurrences (l acc : list jsstring) :
  foldl (fun files x => JSSet.add x files) acc l
  = acc ++ filter (fun y => y ∉ acc) (firstOccurrences l).
Proof.
  revert acc. induction l as [| x l IH]; intros acc; simpl.
  - by rewrite app_nil_r.
  - rewrite IH. unfold JSSet.add, JSSet.has. case_bool_decide as Hin.
    + rewrite filter_cons_False by (intros Hout; done).
      rewrite list_filter_filter. f_equal. apply list_filter_iff.
      intros y. split; [| tauto]. intros Hy. split; [done | by intros ->].
    + rewrite filter_cons_True by done. rewrite <- app_assoc. simpl. do 2 f_equal.
      rewrite list_filter_filter. apply list_filter_iff.
      intros y. rewrite elem_of_app, list_elem_of_singleton. tauto.
Qed.

Lemma touchedSet_firstOccurrences messages :
  touchedSet messages = firstOccurrences (omap touchedPath messages).
Proof.
  unfold touchedSet, JSSet.empty.
  rewrite <- (app_nil_l (firstOccurrences _)).
  assert (Hall : ∀ l : list jsstring, filter (fun y => y ∉ @nil jsstring) l = l).
  { intros l. induction l as [| y l IHl]; [done |].
    rewrite filter_cons_True by apply not_elem_of_nil. by rewrite IHl. }
  rewrite <- (Hall (firstOccurrences _)), <- foldl_add_firstOccurrences.
  generalize (@nil jsstring) as files.
  induction messages as [| msg messages IH]; intros files; simpl; [done |].
  destruct (touchedPath msg); simpl; apply IH.
Qed.

(** X22: paths between which [localeCompare] returns 0 are returned in the
    order in which the messages first name them: for every path, the paths
    of the result that compare equal to it are the paths contributed by the
    messages that compare equal to it, in the order of their first
    occurrence. *)
Theorem getSessionTouchedFiles_stable localeCompare messages path :
  consistent localeCompare →
  filter (fun q => localeCompare path q = 0%Z)
    (getSessionTouchedFiles localeCompare messages)
  = filter (fun q => localeCompare path q = 0%Z)
      (firstOccurrences (omap touchedPath messages)).
Proof.
  intros Hcmp. rewrite <- touchedSet_firstOccurrences. by apply sort_stable.
Qed.

Lemma getSessionTouchedFiles_stable_witness :
  filter (fun q => collate cafe_composed q = 0%Z)
    (getSessionTouchedFiles collate [edit_decomposed; write_B; edit_composed])
  = [cafe_decomposed; cafe_composed].
Proof.
  rewrite (getSessionTouchedFiles_stable collate _ cafe_composed collate_consistent).
  vm_compute. reflexivity.
Defined.

(** ** Exit status and output *)

(** X23: the exit status alone decides what the resolver returns. When
    [git show] exits with status 0, [getOriginalFromHead] resolves to its
    output, unchanged; when it exits with another status its output is
    discarded and the result is the empty string. [isGitRepo] is [true]
    exactly when [git rev-parse] exits with status 0, whatever it prints. *)
Theorem resolver_exit_status h workingDir path :
  (∀ stdout,
     spawn h (u16 "git show HEAD:" ++ quote :: relativePathOf h workingDir path ++ [quote])
       {| cwd := workingDir; timeout := 10000; maxBuffer := Some (10 * 1024 * 1024) |}
     = Exited 0 stdout →
     getOriginalFromHead h workingDir path = Returned stdout)
  ∧ (∀ code stdout, code ≠ 0%Z →
       spawn h (u16 "git show HEAD:" ++ quote :: relativePathOf h workingDir path ++ [quote])
         {| cwd := workingDir; timeout := 10000; maxBuffer := Some (10 * 1024 * 1024) |}
       = Exited code stdout →
       getOriginalFromHead h workingDir path = Returned [])
  ∧ (isGitRepo h workingDir = Returned true
     ↔ ∃ stdout,
         spawn h (u16 "git rev-parse --git-dir")
           {| cwd := workingDir; timeout := 5000; maxBuffer := None |}
         = Exited 0 stdout).
Proof.
  split_and!.
  - intros stdout Hrun. rewrite getOriginalFromHead_value.
    unfold gitShowHead, execSync. by rewrite Hrun.
  - intros code stdout Hcode Hrun. rewrite getOriginalFromHead_value.
    unfold gitShowHead, execSync. rewrite Hrun. by destruct code.
  - unfold isGitRepo, gitRevParse. rewrite <- execSync_succeeded.
    destruct (execSync _ _ _) as [out | reason]; simpl.
    + split; [by exists out | done].
    + split; [done | by intros [out Hout]].
Qed.

Lemma resolver_exit_status_witness :
  getOriginalFromHead sampleHost (u16 "/repo") (u16 "/repo/a.txt") = Returned (u16 "x")
  ∧ getOriginalFromHead sampleHost (u16 "/repo") (u16 "/repo/b.txt") = Returned [].
Proof.
  destruct (resolver_exit_status sampleHost (u16 "/repo") (u16 "/repo/a.txt"))
    as (Hok & _ & _).
  destruct (resolver_exit_status sampleHost (u16 "/repo") (u16 "/repo/b.txt"))
    as (_ & Hfail & _).
  split.
  - apply Hok. vm_compute. reflexivity.
  - apply (Hfail 128%Z []); [discriminate |]. vm_compute. reflexivity.
Defined.

(** ** Text added at a line boundary *)

(** X24: when the modified text is the original text followed by a newline
    and further text, or further text and a newline followed by the original
    text, there are no deletions, and the additions are the lines of the
    further text that are no lines of the original. *)
Theorem countLineDifferences_appended original extra :
  countLineDifferences original (original ++ LF :: extra)
  = {| LineCounts.additions := linesAbsent extra original;
       LineCounts.deletions := 0 |}
  ∧ countLineDifferences original (extra ++ LF :: original)
    = {| LineCounts.additions := linesAbsent extra original;
         LineCounts.deletions := 0 |}.
Proof.
  rewrite !countLineDifferences_lines.
  assert (Hkeep : linesAbsent original original = 0%nat) by apply linesAbsent_self.
  split; f_equal.
  - unfold linesAbsent in *. rewrite split_app_sep, filter_app, length_app.
    by rewrite Hkeep.
  - apply linesAbsent_zero. intros line Hin.
    rewrite split_app_sep. apply elem_of_app. by left.
  - unfold linesAbsent in *. rewrite split_app_sep, filter_app, length_app.
    rewrite Hkeep. lia.
  - apply linesAbsent_zero. intros line Hin.
    rewrite split_app_sep. apply elem_of_app. by right.
Qed.
